(** * bands: a shallow embedding of [bands.py]

    The development follows the layout of the Python module: object
    model and exceptions, the reference holders ([WeakRef], [WeakMeth],
    [StrongRef]), [WeakSet], [Context], [Dispatcher], [Band] and
    [Channel].  Python objects are described by the attributes the code
    probes with [hasattr]; object identity ([id(obj)]) is an integer
    address; liveness of weakly referenced objects is an explicit set of
    live addresses. *)

From stdpp Require Import gmap strings list fin_maps.

Set Warnings "-register-all".
Open Scope Z_scope.

(** ** Object model *)

(** [id(obj)]. *)
Abbreviation addr := Z (only parsing).

(** [id(None)]: the identity of the one [None] object. *)
Definition id_None : addr := 0.

(** Exceptions the module can raise by itself, and those raised by user
    code (receivers and hooks). *)
Inductive exn :=
| TypeError
| AttributeError
| KeyError
| IndexError
| ValueError
| UserError (msg : string).

Inductive result (A : Type) :=
| Ok (a : A)
| Raise (e : exn).
Arguments Ok {A} a.
Arguments Raise {A} e.

(** Code that reads and writes a state [S] and may raise: the state
    reached when an exception leaves the code is kept, as a Python
    caller that catches the exception finds it. *)
Definition M (S A : Type) : Type := S → result A * S.

Global Instance M_ret {S} : MRet (M S) := λ A a s, (Ok a, s).
Global Instance M_bind {S} : MBind (M S) := λ A B k m s,
  match m s with
  | (Ok a, s') => k a s'
  | (Raise e, s') => (Raise e, s')
  end.

Definition raise {S A} (e : exn) : M S A := λ s, (Raise e, s).
Definition get {S} : M S S := λ s, (Ok s, s).
Definition put {S} (s : S) : M S () := λ _, (Ok (), s).
Definition modify {S} (f : S → S) : M S () := λ s, (Ok (), f s).

(** A computation that only raises or returns. *)
Definition lift {S A} (r : result A) : M S A := λ s, (r, s).

(** An exception raised inside a weak reference callback does not
    propagate: the interpreter reports it and goes on. *)
Definition ignore_exn {S} (m : M S ()) : M S () := λ s, (Ok (), (m s).2).

(** [for x in l: body(x)]. *)
Fixpoint for_each {S A} (l : list A) (body : A → M S ()) : M S () :=
  match l with
  | [] => mret ()
  | x :: l' => body x;; for_each l' body
  end.

(** What a generator gives its consumer: the items it yields and, when
    it stops by raising, the exception. *)
Definition gen (A : Type) : Type := list A * option exn.

(** Values passed to and returned by receivers. *)
Inductive pyval :=
| VNone
| VBool (b : bool)
| VInt (z : Z)
| VStr (s : string)
| VTuple (items : list pyval)
| VDict (items : list (string * pyval)).

(** [*args] and [**kwargs]. *)
Abbreviation pyargs := (list pyval) (only parsing).
Abbreviation pykwargs := (list (string * pyval)) (only parsing).

(** [obj.__name__].  A function, a class or a method of a Python class
    keeps its name as an attribute: every access gives the same string
    object, the one at [name_id].  A builtin method ([print], [len],
    [l.append]) computes it: every access builds a new string object,
    at an address the interpreter chooses, so that [id(obj.__name__)]
    is not the same from one access to the next. *)
Inductive name_attr :=
| NameStored (name_id : addr) (name : string)
| NameComputed (name : string).

Definition name_of (n : name_attr) : string :=
  match n with
  | NameStored _ name | NameComputed name => name
  end.

(** [id(obj.__name__)] at an access where a computed name is built at
    [fresh]. *)
Definition name_id_at (fresh : addr) (n : name_attr) : addr :=
  match n with
  | NameStored name_id _ => name_id
  | NameComputed _ => fresh
  end.

(** A Python object as [bands.py] sees it.  [py_call] is [__call__]
    ([None] when [hasattr(obj, '__call__')] is false), [py_self] is
    [__self__] (its identity and whether it supports weak references),
    [py_func] is [id(obj.__func__)], [py_name] is [__name__],
    [py_weakrefable] says whether [weakref.ref(obj)] is accepted. *)
Record pyobj := PyObj {
  py_id : addr;
  py_call : option (pyargs → pykwargs → result pyval);
  py_self : option (addr * bool);
  py_func : option addr;
  py_name : option name_attr;
  py_weakrefable : bool
}.

(** [is_method(obj)]: [hasattr(obj, '__call__') and hasattr(obj, '__self__')]. *)
Definition is_method (obj : pyobj) : bool :=
  bool_decide (is_Some (py_call obj)) && bool_decide (is_Some (py_self obj)).

(** A call [receiver(...)] with the arguments of the send. *)
Definition call (obj : pyobj) (args : pyargs) (kwargs : pykwargs) : result pyval :=
  match py_call obj with
  | Some f => f args kwargs
  | None => Raise TypeError
  end.

(** The object whose death [WeakSet.add(obj)] watches: the instance of
    a method, the object itself otherwise. *)
Definition target_addr (obj : pyobj) : addr :=
  if is_method obj then
    match py_self obj with
    | Some (inst, _) => inst
    | None => py_id obj
    end
  else py_id obj.

(** The identity [WeakSet._ref_id] computes: an [int] for plain objects,
    a pair for methods. *)
Inductive ref_id :=
| IdObj (a : addr)
| IdMeth (self_id f_id : addr).

Global Instance ref_id_eq_dec : EqDecision ref_id.
Proof. solve_decision. Defined.

(** ** Reference holders *)

(** [WeakRef(obj, callback)] with its [ref_id] attribute; [WeakMeth]
    with [name] and [ref] (a [WeakRef] to [obj.__self__] that carries
    [ref_id]); [StrongRef] with [name], [obj] and [ref_id].  A weak
    reference designates its target without keeping it alive: the target
    is recorded here and the set of live addresses decides whether it is
    still there. *)
Inductive Ref :=
| WeakRef (target : pyobj) (rid : ref_id)
| WeakMeth (name : string) (inst : addr) (meth : pyobj) (rid : ref_id)
| StrongRef (name : string) (obj : pyobj) (rid : ref_id).

(** The [ref_id] attribute set by [WeakSet.add]. *)
Definition Ref_ref_id (r : Ref) : ref_id :=
  match r with
  | WeakRef _ rid | WeakMeth _ _ _ rid | StrongRef _ _ rid => rid
  end.

(** [ref()]: [WeakRef.__call__], [WeakMeth.__call__] and
    [StrongRef.__call__].  A weak holder gives [None] once its target is
    dead.  While the instance lives, [WeakMeth.__call__] is
    [getattr(inst, self.name)]: it is taken here to give the method
    back, which it does for a method that its instance has under the
    method's own [__name__]. *)
Definition Ref_call (live : gset addr) (r : Ref) : option pyobj :=
  match r with
  | WeakRef target _ =>
      if bool_decide (py_id target ∈ live) then Some target else None
  | WeakMeth _ inst meth _ =>
      if bool_decide (inst ∈ live) then Some meth else None
  | StrongRef _ obj _ => Some obj
  end.

(** ** WeakSet *)

Module WeakSet.

Record t := Make {
  _refs : list Ref;
  _ids : list ref_id
}.

(** [__init__] without an iterator. *)
Definition empty : t := {| _refs := []; _ids := [] |}.

(** [__len__]. *)
Definition len (self : t) : nat := length (_ids self).

(** [__iter__]. *)
Definition iter (live : gset addr) (self : t) : list pyobj :=
  omap (Ref_call live) (_refs self).

(** [_ref_id].  [fresh] is the address at which the interpreter puts
    the string that this call builds if it reads a computed
    [__name__]. *)
Definition _ref_id (fresh : addr) (obj : pyobj) : result ref_id :=
  if is_method obj then
    match py_self obj with
    | Some (self_id, _) =>
        match py_func obj with
        | Some f_id => Ok (IdMeth self_id f_id)
        | None =>
            match py_name obj with
            | Some n => Ok (IdMeth self_id (name_id_at fresh n))
            | None => Raise AttributeError
            end
        end
    | None => Raise AttributeError
    end
  else Ok (IdObj (py_id obj)).

(** [x in l] followed by [l.index(x)]: [ValueError] when absent. *)
Fixpoint index (x : ref_id) (l : list ref_id) : result nat :=
  match l with
  | [] => Raise ValueError
  | y :: l' =>
      if decide (x = y) then Ok 0%nat
      else match index x l' with Ok i => Ok (S i) | Raise e => Raise e end
  end.

(** [l.pop(i)]: [IndexError] out of range. *)
Definition pop {A} (i : nat) (l : list A) : result (list A) :=
  if decide (i < length l)%nat then Ok (delete i l) else Raise IndexError.

(** [self._ids.pop(index)], [self._refs.pop(index)],
    [self._ids.append(ref_id)], [self._refs.append(ref)]. *)
Definition _ids_pop (i : nat) : M t () := λ self,
  match pop i (_ids self) with
  | Ok ids' => (Ok (), {| _refs := _refs self; _ids := ids' |})
  | Raise e => (Raise e, self)
  end.
Definition _refs_pop (i : nat) : M t () := λ self,
  match pop i (_refs self) with
  | Ok refs' => (Ok (), {| _refs := refs'; _ids := _ids self |})
  | Raise e => (Raise e, self)
  end.
Definition _ids_append (rid : ref_id) : M t () :=
  modify (λ self, {| _refs := _refs self; _ids := _ids self ++ [rid] |}).
Definition _refs_append (r : Ref) : M t () :=
  modify (λ self, {| _refs := _refs self ++ [r]; _ids := _ids self |}).

(** [_remove_ref], the callback of the weak references. *)
Definition _remove_ref (ref : Ref) : M t () :=
  let ref_id := Ref_ref_id ref in
  self ← get;
  if negb (bool_decide (ref_id ∈ _ids self)) then mret ()
  else
    index ← lift (index ref_id (_ids self));
    _ids_pop index;;
    _refs_pop index.

(** [StrongRef(obj)], [WeakMeth(obj, callback)] and
    [WeakRef(obj, callback)], each followed by the assignment of
    [ref_id]. *)
Definition new_StrongRef (obj : pyobj) (rid : ref_id) : result Ref :=
  match py_name obj with
  | Some n => Ok (StrongRef (name_of n) obj rid)
  | None => Raise AttributeError
  end.
Definition new_WeakMeth (obj : pyobj) (rid : ref_id) : result Ref :=
  match py_name obj with
  | Some n =>
      match py_self obj with
      | Some (inst, true) => Ok (WeakMeth (name_of n) inst obj rid)
      | Some (_, false) => Raise TypeError
      | None => Raise AttributeError
      end
  | None => Raise AttributeError
  end.
Definition new_WeakRef (obj : pyobj) (rid : ref_id) : result Ref :=
  if py_weakrefable obj then Ok (WeakRef obj rid) else Raise TypeError.

(** [add]. *)
Definition add (fresh : addr) (obj : pyobj) (strong : bool) : M t () :=
  ref_id ← lift (_ref_id fresh obj);
  self ← get;
  if bool_decide (ref_id ∈ _ids self) then mret ()
  else
    _ids_append ref_id;;
    ref ← lift (if strong then new_StrongRef obj ref_id
                else if is_method obj then new_WeakMeth obj ref_id
                else new_WeakRef obj ref_id);
    _refs_append ref.

(** [discard]. *)
Definition discard (fresh : addr) (obj : pyobj) : M t () :=
  ref_id ← lift (_ref_id fresh obj);
  self ← get;
  if negb (bool_decide (ref_id ∈ _ids self)) then mret ()
  else
    index ← lift (index ref_id (_ids self));
    _ids_pop index;;
    _refs_pop index.

(** [__contains__], for an object given as argument ([obj in
    self._ids] and [obj in self._refs] compare the object with
    identities and with reference holders, which it is not). *)
Definition contains (fresh : addr) (self : t) (obj : pyobj) : result bool :=
  match _ref_id fresh obj with
  | Ok ref_id => Ok (bool_decide (ref_id ∈ _ids self))
  | Raise e => Raise e
  end.

(** The loop [for item in iterator: self.add(item)]; [fresh k] is the
    address at which a computed name is built at the [k]-th [add]. *)
Fixpoint add_all (fresh : nat → addr) (items : list pyobj) : M t () :=
  match items with
  | [] => mret ()
  | item :: items' => add (fresh 0%nat) item false;; add_all (fresh ∘ S) items'
  end.

(** [__init__(iterator)]: the items of [iterator] are added one by
    one; an exception of [add] or of the iterator leaves the
    constructor. *)
Definition __init__ (fresh : nat → addr) (iterator : gen pyobj) : result t :=
  match add_all fresh iterator.1 empty with
  | (Ok _, self) =>
      match iterator.2 with
      | None => Ok self
      | Some e => Raise e
      end
  | (Raise e, _) => Raise e
  end.

(** The weak references of the set whose target is the object at
    [a]: their callbacks run when that object is collected. *)
Definition weak_target (r : Ref) : option addr :=
  match r with
  | WeakRef target _ => Some (py_id target)
  | WeakMeth _ inst _ _ => Some inst
  | StrongRef _ _ _ => None
  end.

Definition on_collect (a : addr) : M t () :=
  self ← get;
  for_each (filter (λ r, weak_target r = Some a) (_refs self))
    (λ r, ignore_exn (_remove_ref r)).

End WeakSet.

(** ** Context *)

Module Context.

Record t := Make {
  identifier : string;
  receivers : WeakSet.t;
  args : pyargs;
  kwargs : pykwargs;
  results : list pyval
}.

(** [__init__(self, identifier, receivers, *args, **kwargs)]. *)
Definition __init__ (fresh : nat → addr) (identifier : string)
    (receivers : gen pyobj) (args : pyargs) (kwargs : pykwargs) : result t :=
  match WeakSet.__init__ fresh receivers with
  | Ok set =>
      Ok {| identifier := identifier; receivers := set;
            args := args; kwargs := kwargs; results := [] |}
  | Raise e => Raise e
  end.

(** [ctx.results.append(result)]. *)
Definition results_append (ctx : t) (result : pyval) : t :=
  {| identifier := identifier ctx; receivers := receivers ctx;
     args := args ctx; kwargs := kwargs ctx;
     results := results ctx ++ [result] |}.

End Context.

(** ** Dispatcher *)

(** What a send does to the outside, in the order it does it: the calls
    of the hooks with the [Context] they receive and the calls of the
    receivers with their arguments. *)
Inductive event :=
| EvBefore (ctx : Context.t)
| EvCall (receiver : pyobj) (args : pyargs) (kwargs : pykwargs)
| EvAfter (ctx : Context.t).

Definition log (e : event) : M (list event) () := modify (λ tr, tr ++ [e]).

Module Dispatcher.

(** A [Dispatcher] object: [hasattr(self, 'before_dispatch')] and
    [hasattr(self, 'after_dispatch')] are the two optional hooks a
    subclass provides; a hook sees the [Context] and returns or
    raises. *)
Record t := Make {
  before_dispatch : option (Context.t → result ());
  after_dispatch : option (Context.t → result ())
}.

(** [DEFAULT_DISPATCHER = Dispatcher()]. *)
Definition DEFAULT_DISPATCHER : t :=
  {| before_dispatch := None; after_dispatch := None |}.

(** [dispatch]. *)
Definition dispatch (self : t) (identifier : string) (receiver : pyobj)
    (args : pyargs) (kwargs : pykwargs) : M (list event) pyval :=
  log (EvCall receiver args kwargs);;
  lift (call receiver args kwargs).

(** The loop [for receiver in ctx.receivers] of [_dispatch]. *)
Fixpoint run_receivers (self : t) (identifier : string) (todo : list pyobj)
    (args : pyargs) (kwargs : pykwargs) (ctx : Context.t)
    : M (list event) Context.t :=
  match todo with
  | [] => mret ctx
  | receiver :: todo' =>
      result ← dispatch self identifier receiver args kwargs;
      run_receivers self identifier todo' args kwargs
        (Context.results_append ctx result)
  end.

Definition run_hook (hook : option (Context.t → result ()))
    (ev : Context.t → event) (ctx : Context.t) : M (list event) () :=
  match hook with
  | Some h => log (ev ctx);; lift (h ctx)
  | None => mret ()
  end.

(** [_dispatch].  [live] is what is alive during the send and [fresh]
    gives the addresses of the strings built while the [Context] takes
    the receivers in. *)
Definition _dispatch (self : t) (live : gset addr) (fresh : nat → addr)
    (identifier : string) (receivers : gen pyobj) (args : pyargs)
    (kwargs : pykwargs) : M (list event) (list pyval) :=
  ctx ← lift (Context.__init__ fresh identifier receivers
                [VTuple args; VDict kwargs] []);
  run_hook (before_dispatch self) EvBefore ctx;;
  ctx ← run_receivers self identifier
          (WeakSet.iter live (Context.receivers ctx)) args kwargs ctx;
  run_hook (after_dispatch self) EvAfter ctx;;
  mret (Context.results ctx).

End Dispatcher.

(** ** Channels, bands and the heap *)

(** An object offered as [parent]: its identity, its truth value
    ([if parent:]) and whether [weakref.proxy(parent)] accepts it. *)
Record owner := Owner {
  owner_id : addr;
  owner_truthy : bool;
  owner_weakrefable : bool
}.

(** [id(parent)], [parent] being [None] or an object. *)
Definition id_of (parent : option owner) : addr :=
  match parent with
  | Some o => owner_id o
  | None => id_None
  end.

(** A [Channel] object.  [parent] is [None] or the identity of the
    owner the attribute designates (through [weakref.proxy] or
    directly); [receivers_id] is [id(self.receivers)]. *)
Record Channel := MkChannel {
  identifier : string;
  parent : option addr;
  receivers_id : addr;
  receivers : WeakSet.t
}.

Abbreviation key := (string * addr)%type (only parsing).

(** [WeakRef(chan, self._remove_channel)] with its [key] attribute. *)
Record ChanRef := MkChanRef {
  ref_chan : addr;
  ref_key : key
}.

Global Instance ChanRef_eq_dec : EqDecision ChanRef.
Proof. solve_decision. Defined.

(** A [Band] object: [channels] is a [dict], [by_parent] a
    [defaultdict(dict)], [by_identifier] a [defaultdict(list)]. *)
Record Band := MkBand {
  dispatcher : Dispatcher.t;
  channels : gmap key ChanRef;
  by_parent : gmap addr (gmap string key);
  by_identifier : gmap string (list key)
}.

(** The state the code runs in: one band, the [Channel] objects that
    are alive (by address), the other live objects (receivers, owners
    of methods, receiver sets), the next address the allocator hands
    out, and the calls made so far. *)
Record World := MkWorld {
  band : Band;
  heap : gmap addr Channel;
  live : gset addr;
  next_id : addr;
  trace : list event
}.

Definition with_band (f : Band → Band) (w : World) : World :=
  {| band := f (band w); heap := heap w; live := live w;
     next_id := next_id w; trace := trace w |}.
Definition set_band (f : Band → Band) : M World () := modify (with_band f).
Definition set_heap (f : gmap addr Channel → gmap addr Channel) : M World () :=
  modify (λ w, {| band := band w; heap := f (heap w); live := live w;
                  next_id := next_id w; trace := trace w |}).
Definition set_live (f : gset addr → gset addr) : M World () :=
  modify (λ w, {| band := band w; heap := heap w; live := f (live w);
                  next_id := next_id w; trace := trace w |}).
Definition set_next_id (a : addr) : M World () :=
  modify (λ w, {| band := band w; heap := heap w; live := live w;
                  next_id := a; trace := trace w |}).

(** A piece of code that works on the [trace] only. *)
Definition with_trace {A} (m : M (list event) A) : M World A := λ w,
  let '(r, tr) := m (trace w) in
  (r, {| band := band w; heap := heap w; live := live w;
         next_id := next_id w; trace := tr |}).

(** A method of the [WeakSet] [self.receivers] of the channel at [chan]. *)
Definition with_receivers {A} (chan : addr) (m : M WeakSet.t A) : M World A := λ w,
  match heap w !! chan with
  | None => (Raise AttributeError, w)
  | Some c =>
      let '(r, set) := m (receivers c) in
      (r, {| band := band w;
             heap := <[chan := {| identifier := identifier c; parent := parent c;
                                  receivers_id := receivers_id c;
                                  receivers := set |}]> (heap w);
             live := live w; next_id := next_id w; trace := trace w |})
  end.

(** [d[k]] on a [defaultdict]: a missing key first receives the default. *)
Definition defaultdict_get `{Countable K} {V} (default : V) (k : K)
    (d : gmap K V) : V * gmap K V :=
  match d !! k with
  | Some v => (v, d)
  | None => (default, <[k := default]> d)
  end.

(** [l.remove(x)]: the first occurrence goes. *)
Fixpoint list_remove `{EqDecision A} (x : A) (l : list A) : list A :=
  match l with
  | [] => []
  | y :: l' => if decide (x = y) then l' else y :: list_remove x l'
  end.

(** [Channel.bound]. *)
Definition bound (self : Channel) : bool := bool_decide (parent self ≠ None).

(** A receiver group, as [get_channel_receivers] yields it: the
    [WeakSet] object [chan.receivers]. *)
Definition group (c : Channel) : addr * WeakSet.t := (receivers_id c, receivers c).

(** A [WeakSet] object seen as any object: not callable, no [__self__],
    no [__name__], weakly referenceable. *)
Definition WeakSet_object (g : addr * WeakSet.t) : pyobj :=
  {| py_id := g.1; py_call := None; py_self := None; py_func := None;
     py_name := None; py_weakrefable := true |}.

Module Band.

(** [Band(dispatcher)] in a fresh interpreter. *)
Definition __init__ (d : Dispatcher.t) : World :=
  {| band := {| dispatcher := d; channels := ∅; by_parent := ∅; by_identifier := ∅ |};
     heap := ∅; live := ∅; next_id := 1; trace := [] |}.

(** [self.by_identifier[identifier]] and [self.by_parent[parent_id]]. *)
Definition by_identifier_get (identifier : string) : M World (list key) := λ w,
  let '(l, d) := defaultdict_get [] identifier (by_identifier (band w)) in
  (Ok l, with_band (λ b, {| dispatcher := dispatcher b; channels := channels b;
                            by_parent := by_parent b; by_identifier := d |}) w).
Definition by_parent_get (parent_id : addr) : M World (gmap string key) := λ w,
  let '(m, d) := defaultdict_get ∅ parent_id (by_parent (band w)) in
  (Ok m, with_band (λ b, {| dispatcher := dispatcher b; channels := channels b;
                            by_parent := d; by_identifier := by_identifier b |}) w).

Definition set_channels (f : gmap key ChanRef → gmap key ChanRef) : M World () :=
  set_band (λ b, {| dispatcher := dispatcher b; channels := f (channels b);
                    by_parent := by_parent b; by_identifier := by_identifier b |}).
Definition set_by_parent (parent_id : addr) (m : gmap string key) : M World () :=
  set_band (λ b, {| dispatcher := dispatcher b; channels := channels b;
                    by_parent := <[parent_id := m]> (by_parent b);
                    by_identifier := by_identifier b |}).
Definition set_by_identifier (identifier : string) (l : list key) : M World () :=
  set_band (λ b, {| dispatcher := dispatcher b; channels := channels b;
                    by_parent := by_parent b;
                    by_identifier := <[identifier := l]> (by_identifier b) |}).

(** [_remove_channel]. *)
Definition _remove_channel (ref : ChanRef) : M World () :=
  let '(identifier, parent_id) := ref_key ref in
  l ← by_identifier_get identifier;
  (if bool_decide (ref_key ref ∈ l) then
     l ← by_identifier_get identifier;
     set_by_identifier identifier (list_remove (ref_key ref) l)
   else mret ());;
  m ← by_parent_get parent_id;
  set_by_parent parent_id (delete identifier m);;
  set_channels (delete (ref_key ref)).

(** [Channel(identifier, parent, self)]: [Channel.__init__] on a newly
    allocated object, with its new, empty [WeakSet]. *)
Definition new_Channel (identifier : string) (parent : option owner) : M World addr :=
  self_parent ←
    match parent with
    | Some o =>
        if owner_truthy o then
          if owner_weakrefable o then mret (Some (owner_id o)) else raise TypeError
        else mret (Some (owner_id o))
    | None => mret None
    end;
  w ← get;
  let chan := next_id w in
  set_heap (insert chan {| identifier := identifier; parent := self_parent;
                           receivers_id := chan + 1;
                           receivers := WeakSet.empty |});;
  set_live (union {[chan + 1]});;
  set_next_id (chan + 2);;
  mret chan.

(** [self.channels[key]()]: the channel, or [None] once it is gone. *)
Definition deref (w : World) (ref : ChanRef) : option addr :=
  if bool_decide (ref_chan ref ∈ dom (heap w)) then Some (ref_chan ref) else None.

(** [channel]. *)
Definition channel (identifier : string) (parent : option owner)
    : M World (option addr) :=
  let key := (identifier, id_of parent) in
  w ← get;
  (if negb (bool_decide (key ∈ dom (channels (band w)))) then
     chan ← new_Channel identifier parent;
     let ref := {| ref_chan := chan; ref_key := key |} in
     set_channels (insert key ref);;
     m ← by_parent_get (id_of parent);
     set_by_parent (id_of parent) (<[identifier := key]> m);;
     l ← by_identifier_get identifier;
     set_by_identifier identifier (l ++ [key])
   else mret ());;
  w ← get;
  match channels (band w) !! key with
  | Some ref => mret (deref w ref)
  | None => raise KeyError
  end.

(** The loop of the unbound branch of [get_channel_receivers]. *)
Fixpoint other_receivers (w : World) (chan : addr) (keys : list key)
    : gen (addr * WeakSet.t) :=
  match keys with
  | [] => ([], None)
  | key :: keys' =>
      match channels (band w) !! key with
      | None => ([], Some KeyError)
      | Some ref =>
          match deref w ref with
          | None => ([], Some AttributeError)
          | Some other_chan =>
              if decide (other_chan = chan) then other_receivers w chan keys'
              else
                match heap w !! other_chan with
                | None => ([], Some AttributeError)
                | Some c =>
                    let '(groups, e) := other_receivers w chan keys' in
                    (group c :: groups, e)
                end
          end
      end
  end.

(** [get_channel_receivers]: the generator is run to its end, which
    gives the groups it yields and the exception it stops with, if
    any. *)
Definition get_channel_receivers (chan : addr) : M World (gen (addr * WeakSet.t)) :=
  w ← get;
  match heap w !! chan with
  | None => mret ([], Some AttributeError)
  | Some c =>
      if bound c then
        let key := (identifier c, id_None) in
        if bool_decide (key ∈ dom (channels (band w))) then
          match channels (band w) !! key with
          | None => mret ([group c], Some KeyError)
          | Some ref =>
              match deref w ref with
              | None => mret ([group c], None)
              | Some any_chan =>
                  match heap w !! any_chan with
                  | None => mret ([group c], Some AttributeError)
                  | Some u => mret ([group c; group u], None)
                  end
              end
          end
        else mret ([group c], None)
      else
        keys ← by_identifier_get (identifier c);
        w ← get;
        let '(groups, e) := other_receivers w chan keys in
        mret (group c :: groups, e)
  end.

(** [dispatch]. *)
Definition dispatch (fresh : nat → addr) (identifier : string)
    (receivers : gen pyobj) (args : pyargs) (kwargs : pykwargs)
    : M World (list pyval) :=
  w ← get;
  with_trace (Dispatcher._dispatch (dispatcher (band w)) (live w) fresh
                identifier receivers args kwargs).

(** [send]: [parent] is the entry popped from the keyword arguments,
    [kwargs] what remains of them. *)
Definition send (fresh : nat → addr) (identifier : string) (args : pyargs)
    (parent : option owner) (kwargs : pykwargs) : M World (list pyval) :=
  chan ← channel identifier parent;
  groups ← match chan with
           | Some chan => get_channel_receivers chan
           | None => mret ([], Some AttributeError)
           end;
  dispatch fresh identifier (WeakSet_object <$> groups.1, groups.2) args kwargs.

End Band.

Module Channel.

(** [get_receivers]. *)
Definition get_receivers (self : addr) : M World (gen pyobj) :=
  groups ← Band.get_channel_receivers self;
  w ← get;
  mret (mjoin ((λ g, WeakSet.iter (live w) g.2) <$> groups.1), groups.2).

(** [send]. *)
Definition send (self : addr) (fresh : nat → addr) (args : pyargs)
    (kwargs : pykwargs) : M World (list pyval) :=
  w ← get;
  match heap w !! self with
  | None => raise AttributeError
  | Some c =>
      receivers ← get_receivers self;
      Band.dispatch fresh (identifier c) receivers args kwargs
  end.

(** [connect]. *)
Definition connect (self : addr) (fresh : addr) (obj : pyobj) (strong : bool)
    : M World () :=
  with_receivers self (WeakSet.add fresh obj strong).

(** [disconnect]. *)
Definition disconnect (self : addr) (fresh : addr) (obj : pyobj) : M World () :=
  with_receivers self (WeakSet.discard fresh obj).

End Channel.

(** ** Garbage collection *)

(** The key under which [Band.channel] registered a channel. *)
Definition key_of (c : Channel) : key := (identifier c, default id_None (parent c)).

(** The object at [a], which is not a channel, is collected: its weak
    references are cleared and their callbacks run. *)
Definition collect_object (a : addr) : M World () :=
  set_live (λ l, l ∖ {[a]});;
  set_heap (fmap (λ c, {| identifier := identifier c; parent := parent c;
                          receivers_id := receivers_id c;
                          receivers := (WeakSet.on_collect a (receivers c)).2 |})).

(** The channel at [chan] is collected, and its receiver set with it:
    the band's weak reference is cleared and [_remove_channel] runs. *)
Definition collect_channel (chan : addr) : M World () :=
  w ← get;
  match heap w !! chan with
  | None => mret ()
  | Some c =>
      set_heap (delete chan);;
      set_live (λ l, l ∖ {[receivers_id c]});;
      match channels (band w) !! key_of c with
      | Some ref =>
          if decide (ref_chan ref = chan) then ignore_exn (Band._remove_channel ref)
          else mret ()
      | None => mret ()
      end
  end.

(** ** Histories *)

(** What a holder keeps alive: a [StrongRef] holds its object and,
    when that is a method, the instance of the method. *)
Definition strong_targets (r : Ref) : list addr :=
  match r with
  | StrongRef _ obj _ =>
      py_id obj :: match py_self obj with
                   | Some (inst, _) => [inst]
                   | None => []
                   end
  | _ => []
  end.

(** What the channels keep alive: each its receiver set, and each set
    what its strong holders hold. *)
Definition held (w : World) : gset addr :=
  ⋃ ((λ c : Channel,
        {[receivers_id c]} ∪
        list_to_set (mjoin (strong_targets <$> WeakSet._refs (receivers c))))
       <$> (map_to_list (heap w)).*2).

(** The caller of [connect] or [disconnect] holds the object it
    passes: the object (for a method, its instance) is alive. *)
Definition holding (obj : pyobj) : M World () :=
  set_live (union {[target_addr obj]}).

(** What the program around the band can do to it.  The operations
    that compute identities come with the addresses at which the
    interpreter builds the strings of computed names. *)
Inductive op :=
| OpChannel (identifier : string) (parent : option owner)
| OpBandSend (fresh : nat → addr) (identifier : string) (args : pyargs)
    (parent : option owner) (kwargs : pykwargs)
| OpChannelSend (chan : addr) (fresh : nat → addr) (args : pyargs) (kwargs : pykwargs)
| OpConnect (chan : addr) (fresh : addr) (obj : pyobj) (strong : bool)
| OpDisconnect (chan : addr) (fresh : addr) (obj : pyobj)
| OpCollectChannel (chan : addr)
| OpCollectObject (a : addr).

(** One step of the program.  An object is collected only when nothing
    holds it: the collection of an object that a channel keeps alive
    does not happen. *)
Definition run_op (o : op) (w : World) : World :=
  match o with
  | OpChannel identifier parent => (Band.channel identifier parent w).2
  | OpBandSend fresh identifier args parent kwargs =>
      (Band.send fresh identifier args parent kwargs w).2
  | OpChannelSend chan fresh args kwargs => (Channel.send chan fresh args kwargs w).2
  | OpConnect chan fresh obj strong =>
      ((holding obj;; Channel.connect chan fresh obj strong) w).2
  | OpDisconnect chan fresh obj =>
      ((holding obj;; Channel.disconnect chan fresh obj) w).2
  | OpCollectChannel chan => (collect_channel chan w).2
  | OpCollectObject a =>
      if bool_decide (a ∈ held w) then w else (collect_object a w).2
  end.

(** No object but [None] has the identity of [None]. *)
Definition owner_ok (parent : option owner) : Prop :=
  match parent with
  | Some o => owner_id o ≠ id_None
  | None => True
  end.

Definition op_ok (o : op) : Prop :=
  match o with
  | OpChannel _ parent | OpBandSend _ _ _ parent _ => owner_ok parent
  | _ => True
  end.

(** The worlds a program reaches from a new band. *)
Inductive reachable (d : Dispatcher.t) : World → Prop :=
| reachable_init : reachable d (Band.__init__ d)
| reachable_step w o : reachable d w → op_ok o → reachable d (run_op o w).

(** ** Representation invariants *)

(** The two lists of a [WeakSet] go together: [_ids] holds, in order,
    the [ref_id] of the holders in [_refs]; no identity occurs twice. *)
Definition aligned (s : WeakSet.t) : Prop :=
  WeakSet._ids s = Ref_ref_id <$> WeakSet._refs s.

Definition WeakSet_ok (s : WeakSet.t) : Prop :=
  aligned s ∧ NoDup (WeakSet._ids s).

(** The set without its entry of identity [rid]. *)
Definition without (rid : ref_id) (s : WeakSet.t) : WeakSet.t :=
  {| WeakSet._refs := filter (λ r, Ref_ref_id r ≠ rid) (WeakSet._refs s);
     WeakSet._ids := filter (λ i, i ≠ rid) (WeakSet._ids s) |}.

(** The receivers called by the events of a trace, in order. *)
Definition called (tr : list event) : list pyobj :=
  omap (λ e, match e with EvCall receiver _ _ => Some receiver | _ => None end) tr.

(** The keys each index of the band refers to. *)
Definition keys_channels (b : Band) : gset key := dom (channels b).
Definition keys_by_parent (b : Band) : gset key :=
  ⋃ ((λ m : gmap string key, map_img m) <$> (map_to_list (by_parent b)).*2).
Definition keys_by_identifier (b : Band) : gset key :=
  ⋃ ((λ l : list key, list_to_set l) <$> (map_to_list (by_identifier b)).*2).

(** ** Objects used in the examples *)

(** A function defined with [def] or [lambda] at address [a], which
    returns [r] whatever it is called with. *)
Definition function (a : addr) (name : string) (r : result pyval) : pyobj :=
  {| py_id := a; py_call := Some (λ _ _, r); py_self := None; py_func := None;
     py_name := Some (NameStored (a + 1) name); py_weakrefable := true |}.

(** A [functools.partial] object: callable, weakly referenceable,
    without [__name__]. *)
Definition partial (a : addr) (r : result pyval) : pyobj :=
  {| py_id := a; py_call := Some (λ _ _, r); py_self := None; py_func := None;
     py_name := None; py_weakrefable := true |}.

(** The bound method [inst.name] of an instance at [inst] whose class
    defines the function at [f]. *)
Definition method (inst f : addr) (name : string) (r : result pyval) : pyobj :=
  {| py_id := inst + f; py_call := Some (λ _ _, r); py_self := Some (inst, true);
     py_func := Some f; py_name := Some (NameStored (f + 1) name);
     py_weakrefable := true |}.

(** A builtin function such as [print] or [len]: it has [__self__] (the
    module at [module]), no [__func__], and a computed [__name__]. *)
Definition builtin (a module : addr) (name : string) (r : result pyval) : pyobj :=
  {| py_id := a; py_call := Some (λ _ _, r); py_self := Some (module, true);
     py_func := None; py_name := Some (NameComputed name);
     py_weakrefable := true |}.

(** The world in which the receiver set of the channel at [chan] is [s]. *)
Definition with_receivers_set (chan : addr) (s : WeakSet.t) (w : World) : World :=
  (with_receivers chan (put s) w).2.

(** A holder that watches [obj] weakly: its callback fires when the
    object at [target_addr obj] dies, and calling it gives [obj] as long
    as that object lives. *)
Definition watches (r : Ref) (obj : pyobj) : Prop :=
  WeakSet.weak_target r = Some (target_addr obj) ∧
  ∀ live, Ref_call live r =
          if bool_decide (target_addr obj ∈ live) then Some obj else None.

(** A holder whose target, if it is a weak one, is alive. *)
Definition alive_ref (live : gset addr) (r : Ref) : Prop :=
  match WeakSet.weak_target r with
  | Some a => a ∈ live
  | None => True
  end.

Global Instance alive_ref_dec live r : Decision (alive_ref live r).
Proof. unfold alive_ref. destruct (WeakSet.weak_target r); apply _. Defined.

(** The events of the calls of [receivers], in order. *)
Definition calls (receivers : list pyobj) (args : pyargs) (kwargs : pykwargs)
    : list event :=
  (λ r, EvCall r args kwargs) <$> receivers.

(** The event of a hook, when the dispatcher has it. *)
Definition hook_event (hook : option (Context.t → result ()))
    (ev : Context.t → event) (ctx : Context.t) : list event :=
  match hook with
  | Some _ => [ev ctx]
  | None => []
  end.

(** The world with another trace. *)
Definition with_trace_set (tr : list event) (w : World) : World :=
  {| band := band w; heap := heap w; live := live w;
     next_id := next_id w; trace := tr |}.

(** The size of a value: a value is larger than the values it holds. *)
Fixpoint pyval_size (v : pyval) : nat :=
  match v with
  | VTuple items => S (foldr (λ x n, pyval_size x + n)%nat 0%nat items)
  | VDict items => S (foldr (λ x n, pyval_size x.2 + n)%nat 0%nat items)
  | _ => 1%nat
  end.

(** A dispatcher with both hooks, which return. *)
Definition hooked : Dispatcher.t :=
  {| Dispatcher.before_dispatch := Some (λ _, Ok ());
     Dispatcher.after_dispatch := Some (λ _, Ok ()) |}.

(** The world after the operations [ops], in order. *)
Definition run_ops (ops : list op) (w : World) : World :=
  foldl (λ w o, run_op o w) w ops.

(** The world of a program that makes a band with dispatcher [d], asks
    it for the unbound channel ["x"] (which the allocator puts at
    address 1, its receiver set at 2), and connects the [receivers] to
    it, weakly, while holding them. *)
Definition connected (d : Dispatcher.t) (receivers : list pyobj) : World :=
  run_ops (OpChannel "x" None :: ((λ r, OpConnect 1 0 r false) <$> receivers))
    (Band.__init__ d).

(** ** The registry *)

(** The band after [channel] has registered [key] for a new channel at
    [chan], and after [_remove_channel] has run for [key]. *)
Definition Band_registered (key : key) (chan : addr) (b : Band) : Band :=
  {| dispatcher := dispatcher b;
     channels := <[key := {| ref_chan := chan; ref_key := key |}]> (channels b);
     by_parent :=
       <[key.2 := <[key.1 := key]> (default ∅ (by_parent b !! key.2))]> (by_parent b);
     by_identifier :=
       <[key.1 := default [] (by_identifier b !! key.1) ++ [key]]> (by_identifier b) |}.

Definition Band_unregistered (key : key) (b : Band) : Band :=
  {| dispatcher := dispatcher b;
     channels := delete key (channels b);
     by_parent :=
       <[key.2 := delete key.1 (default ∅ (by_parent b !! key.2))]> (by_parent b);
     by_identifier :=
       <[key.1 := list_remove key (default [] (by_identifier b !! key.1))]>
         (by_identifier b) |}.

(** The world after [Band.channel] has made a channel for [identifier]
    and a parent whose attribute is [self_parent]. *)
Definition World_created (identifier : string) (self_parent : option addr)
    (w : World) : World :=
  {| band := Band_registered (identifier, default id_None self_parent) (next_id w) (band w);
     heap := <[next_id w := {| identifier := identifier; parent := self_parent;
                               receivers_id := next_id w + 1;
                               receivers := WeakSet.empty |}]> (heap w);
     live := {[next_id w + 1]} ∪ live w;
     next_id := next_id w + 2;
     trace := trace w |}.

(** The three indices of a band agree: a key is in [channels] exactly
    when [by_parent] maps its parent and identifier to it, and exactly
    when the list [by_identifier] keeps for its identifier holds it;
    the indices hold nothing else, and no list holds a key twice. *)
Record registry_ok (b : Band) : Prop := {
  by_parent_iff : ∀ k : key,
    is_Some (channels b !! k) ↔
    ∃ m, by_parent b !! k.2 = Some m ∧ m !! k.1 = Some k;
  by_parent_key : ∀ p m i (k : key),
    by_parent b !! p = Some m → m !! i = Some k → k = (i, p);
  by_identifier_iff : ∀ k : key,
    is_Some (channels b !! k) ↔
    ∃ l, by_identifier b !! k.1 = Some l ∧ k ∈ l;
  by_identifier_key : ∀ i l (k : key),
    by_identifier b !! i = Some l → k ∈ l → k.1 = i;
  by_identifier_NoDup : ∀ i l,
    by_identifier b !! i = Some l → NoDup l
}.

(** The band and the heap agree: a registered weak reference carries
    its key and designates a live channel made for that key, every live
    channel is registered under its key, bound channels have an owner
    other than [None], and the allocator is ahead of the heap. *)
Record world_ok (w : World) : Prop := {
  world_registry : registry_ok (band w);
  world_refs : ∀ k ref,
    channels (band w) !! k = Some ref →
    ref_key ref = k ∧ ∃ c, heap w !! ref_chan ref = Some c ∧ key_of c = k;
  world_heap : ∀ a c,
    heap w !! a = Some c →
    ∃ ref, channels (band w) !! key_of c = Some ref ∧ ref_chan ref = a;
  world_parent : ∀ a c p,
    heap w !! a = Some c → parent c = Some p → p ≠ id_None;
  world_next : ∀ a, is_Some (heap w !! a) → a < next_id w
}.

(** Whether [Channel.__init__] accepts [parent]: it takes a weak proxy
    of a parent that is true, and keeps any other as it is. *)
Definition proxyable (parent : option owner) : bool :=
  match parent with
  | Some o => negb (owner_truthy o) || owner_weakrefable o
  | None => true
  end.

(** ** Identities and alignment in the worlds of a program *)

(** Whether [_ref_id] takes the identity of [obj] from a computed name:
    [obj] is a method without [__func__] whose [__name__] is built at
    each access. *)
Definition computed_identity (obj : pyobj) : bool :=
  is_method obj && bool_decide (py_func obj = None) &&
  match py_name obj with
  | Some (NameComputed _) => true
  | _ => false
  end.

(** The receiver set of every channel has its two lists aligned and
    holds no identity twice. *)
Definition sets_ok (w : World) : Prop :=
  ∀ chan c, heap w !! chan = Some c → WeakSet_ok (receivers c).

(** Every [connect] of the history [ops], run from [w], returns. *)
Fixpoint connects_return (ops : list op) (w : World) : Prop :=
  match ops with
  | [] => True
  | o :: ops' =>
      match o with
      | OpConnect chan fresh obj strong =>
          (Channel.connect chan fresh obj strong w).1 = Ok ()
      | _ => True
      end ∧ connects_return ops' (run_op o w)
  end.

(** The set without the entries whose holder watches the object at [a]. *)
Definition unwatched (a : addr) (s : WeakSet.t) : WeakSet.t :=
  {| WeakSet._refs := filter (λ r, WeakSet.weak_target r ≠ Some a) (WeakSet._refs s);
     WeakSet._ids := Ref_ref_id <$>
                       filter (λ r, WeakSet.weak_target r ≠ Some a) (WeakSet._refs s) |}.

(** The operation [o], run in [w], makes or passes an object at the
    address [a]: it connects or disconnects an object whose target is
    there, or makes a channel whose receiver set the allocator puts
    there. *)
Definition reuses (a : addr) (o : op) (w : World) : Prop :=
  match o with
  | OpConnect _ _ obj _ | OpDisconnect _ _ obj => target_addr obj = a
  | OpChannel _ _ | OpBandSend _ _ _ _ _ => a = next_id w + 1
  | _ => False
  end.

(** No operation of the history [ops], run from [w], has an object at
    the address [a]. *)
Fixpoint never_reused (a : addr) (ops : list op) (w : World) : Prop :=
  match ops with
  | [] => True
  | o :: ops' => ¬ reuses a o w ∧ never_reused a ops' (run_op o w)
  end.

(** ** Creation order *)

(** [R] holds from each element of the list to every later one. *)
Fixpoint ordered {A} (R : A → A → Prop) (l : list A) : Prop :=
  match l with
  | [] => True
  | x :: l' => Forall (R x) l' ∧ ordered R l'
  end.



(** The channels other than [chan] that the keys [keys] designate, with
    their addresses, in the order of the keys. *)
Definition others_of (w : World) (chan : addr) (keys : list key)
    : list (addr * Channel) :=
  omap (λ k, ref ← channels (band w) !! k;
             u ← heap w !! ref_chan ref;
             if decide (ref_chan ref = chan) then None
             else Some (ref_chan ref, u)) keys.

(** The receiver set of a channel made at [chan] is at [chan + 1], and
    it is alive as long as the channel is. *)
Definition sets_placed (w : World) : Prop :=
  ∀ chan c, heap w !! chan = Some c →
            receivers_id c = chan + 1 ∧ receivers_id c ∈ live w.

(** * Properties *)

Ltac munfold :=
  unfold mbind, M_bind, mret, M_ret, lift, get, put, modify, raise, ignore_exn in *.

(** ** WeakSet *)

Section weakset.
Import WeakSet.

Lemma index_split (x : ref_id) (l : list ref_id) :
  x ∈ l → ∃ l1 l2, l = l1 ++ x :: l2 ∧ (x ∉ l1) ∧ index x l = Ok (length l1).
Proof.
  induction l as [|y l IH]; intros Hin.
  - by apply elem_of_nil in Hin.
  - simpl. destruct (decide (x = y)) as [->|Hne].
    + exists [], l. split_and!; [done | apply not_elem_of_nil | done].
    + apply elem_of_cons in Hin as [?|Hin]; [done|].
      destruct (IH Hin) as (l1 & l2 & -> & Hnot & ->).
      exists (y :: l1), l2. split_and!; [done | | done].
      intros [?|?]%elem_of_cons; done.
Qed.

Lemma delete_middle {A} (l1 l2 : list A) (x : A) :
  delete (length l1) (l1 ++ x :: l2) = l1 ++ l2.
Proof. induction l1 as [|y l1 IH]; simpl; [done | by rewrite IH]. Qed.

Lemma pop_middle {A} (l1 l2 : list A) (x : A) :
  pop (length l1) (l1 ++ x :: l2) = Ok (l1 ++ l2).
Proof.
  unfold pop. rewrite decide_True; [by rewrite delete_middle|].
  rewrite length_app. simpl. lia.
Qed.

Lemma aligned_split (s : t) (rid : ref_id) :
  aligned s → rid ∈ _ids s →
  ∃ refs1 r refs2,
    _refs s = refs1 ++ r :: refs2 ∧ Ref_ref_id r = rid ∧
    (rid ∉ Ref_ref_id <$> refs1) ∧
    index rid (_ids s) = Ok (length refs1).
Proof.
  intros Hal Hin. destruct (index_split _ _ Hin) as (l1 & l2 & Hl & Hnot & Hidx).
  rewrite Hal in Hl. apply fmap_app_inv in Hl as (refs1 & rest & -> & Hrest & Hrefs).
  symmetry in Hrest. apply fmap_cons_inv in Hrest as (r & refs2 & Hr & -> & ->).
  exists refs1, r, refs2. split_and!; [done | done | done |].
  by rewrite Hidx, length_fmap.
Qed.

(** What [_remove_ref] does when the identity is absent, and when it
    is present in a set whose lists go together. *)
Lemma _remove_ref_absent (ref : Ref) (s : t) :
  Ref_ref_id ref ∉ _ids s → _remove_ref ref s = (Ok (), s).
Proof. intros H. unfold _remove_ref. munfold. by rewrite bool_decide_false. Qed.

Lemma _remove_ref_present (ref : Ref) (s : t) :
  aligned s → Ref_ref_id ref ∈ _ids s →
  ∃ refs1 r refs2,
    _refs s = refs1 ++ r :: refs2 ∧ Ref_ref_id r = Ref_ref_id ref ∧
    (Ref_ref_id ref ∉ Ref_ref_id <$> refs1) ∧
    _remove_ref ref s =
      (Ok (), {| _refs := refs1 ++ refs2; _ids := Ref_ref_id <$> (refs1 ++ refs2) |}).
Proof.
  intros Hal Hin.
  destruct (aligned_split s _ Hal Hin) as (refs1 & r & refs2 & Hrefs & Hr & Hnot & Hidx).
  exists refs1, r, refs2. split_and!; try done.
  unfold _remove_ref. munfold. rewrite bool_decide_true by done. simpl.
  rewrite Hidx. unfold _ids_pop, _refs_pop. simpl.
  rewrite Hal, Hrefs. rewrite fmap_app, fmap_cons.
  rewrite <- (length_fmap Ref_ref_id refs1) at 1.
  rewrite pop_middle. simpl. rewrite pop_middle. by rewrite fmap_app.
Qed.

(** [discard(obj)] is [_remove_ref] on a holder of the identity of [obj]. *)
Lemma discard_as_remove (fresh : addr) (obj : pyobj) (rid : ref_id) (s : t) :
  _ref_id fresh obj = Ok rid → discard fresh obj s = _remove_ref (WeakRef obj rid) s.
Proof. intros H. unfold discard, _remove_ref. munfold. by rewrite H. Qed.

Lemma filter_all {A} (P : A → Prop) `{∀ x, Decision (P x)} (l : list A) :
  (∀ x, x ∈ l → P x) → filter P l = l.
Proof.
  induction l as [|x l IH]; intros Hall; [done|].
  rewrite filter_cons_True by (apply Hall; left).
  f_equal. apply IH. intros y Hy. apply Hall. by right.
Qed.

(** In a set that satisfies the invariant, taking the first entry of
    an identity out takes every entry of that identity out. *)
Lemma without_middle (refs1 refs2 : list Ref) (r : Ref) :
  NoDup (Ref_ref_id <$> (refs1 ++ r :: refs2)) →
  {| _refs := refs1 ++ refs2; _ids := Ref_ref_id <$> (refs1 ++ refs2) |} =
  without (Ref_ref_id r)
    {| _refs := refs1 ++ r :: refs2; _ids := Ref_ref_id <$> (refs1 ++ r :: refs2) |}.
Proof.
  rewrite fmap_app, fmap_cons. intros Hnd.
  apply NoDup_app in Hnd as (Hnd1 & Hdisj & Hnd2).
  apply NoDup_cons in Hnd2 as [Hr2 Hnd2].
  assert (Hr1 : Ref_ref_id r ∉ Ref_ref_id <$> refs1).
  { intros Hin. apply (Hdisj _ Hin). left. }
  unfold without. simpl. f_equal.
  - rewrite filter_app, filter_cons_False by (intros ?; done).
    f_equal; symmetry; apply filter_all; intros x Hx Heq;
      [apply Hr1 | apply Hr2]; rewrite <- Heq; by apply list_elem_of_fmap_2.
  - rewrite !fmap_app, filter_app, filter_cons_False by (intros ?; done).
    f_equal; symmetry; apply filter_all; intros x Hx ->; done.
Qed.

Lemma _remove_ref_without (ref : Ref) (s : t) :
  WeakSet_ok s → Ref_ref_id ref ∈ _ids s →
  _remove_ref ref s = (Ok (), without (Ref_ref_id ref) s).
Proof.
  intros [Hal Hnd] Hin.
  destruct (_remove_ref_present ref s Hal Hin)
    as (refs1 & r & refs2 & Hrefs & Hr & _ & ->).
  f_equal. rewrite <- Hr. destruct s as [refs ids].
  unfold aligned in Hal. simpl in *. subst.
  by apply without_middle.
Qed.

Lemma without_ok (rid : ref_id) (s : t) : WeakSet_ok s → WeakSet_ok (without rid s).
Proof.
  intros [Hal Hnd]. split.
  - unfold aligned, without in *. simpl. rewrite Hal. clear.
    induction (_refs s) as [|r l IH]; [done|].
    rewrite fmap_cons, !filter_cons.
    destruct (decide (Ref_ref_id r ≠ rid)); [rewrite fmap_cons|]; by rewrite IH.
  - simpl. by apply NoDup_filter.
Qed.

Lemma without_absent (rid : ref_id) (s : t) : rid ∉ _ids (without rid s).
Proof. simpl. rewrite list_elem_of_filter. by intros [? _]. Qed.

(** What [add] does in each of its three cases. *)
Lemma add_present (fresh : addr) (obj : pyobj) (rid : ref_id) (strong : bool) (s : t) :
  _ref_id fresh obj = Ok rid → rid ∈ _ids s → add fresh obj strong s = (Ok (), s).
Proof. intros H Hin. unfold add. munfold. rewrite H. by rewrite bool_decide_true. Qed.

Lemma add_fresh (fresh : addr) (obj : pyobj) (rid : ref_id) (strong : bool) (s : t) :
  _ref_id fresh obj = Ok rid → rid ∉ _ids s →
  add fresh obj strong s =
    match (if strong then new_StrongRef obj rid
           else if is_method obj then new_WeakMeth obj rid
           else new_WeakRef obj rid) with
    | Ok ref => (Ok (), {| _refs := _refs s ++ [ref]; _ids := _ids s ++ [rid] |})
    | Raise e => (Raise e, {| _refs := _refs s; _ids := _ids s ++ [rid] |})
    end.
Proof.
  intros H Hin. unfold add, _ids_append, _refs_append. munfold.
  rewrite H. rewrite bool_decide_false by done.
  by destruct (if strong then _ else _).
Qed.

Lemma add_raise_ref_id (fresh : addr) (obj : pyobj) (strong : bool) (s : t) (e : exn) :
  _ref_id fresh obj = Raise e → add fresh obj strong s = (Raise e, s).
Proof. intros H. unfold add. munfold. by rewrite H. Qed.

Lemma new_ref_id (obj : pyobj) (rid : ref_id) (strong : bool) (ref : Ref) :
  (if strong then new_StrongRef obj rid
   else if is_method obj then new_WeakMeth obj rid
   else new_WeakRef obj rid) = Ok ref →
  Ref_ref_id ref = rid.
Proof.
  unfold new_StrongRef, new_WeakMeth, new_WeakRef.
  destruct strong; [|destruct (is_method obj)];
    repeat case_match; intros; simplify_eq; done.
Qed.

(** A holder made by a weak [add] watches [target_addr obj] and gives
    [obj] back as long as that object lives. *)
Lemma new_weak_ref (obj : pyobj) (rid : ref_id) (ref : Ref) :
  (if is_method obj then new_WeakMeth obj rid else new_WeakRef obj rid) = Ok ref →
  weak_target ref = Some (target_addr obj) ∧
  ∀ live, Ref_call live ref =
          if bool_decide (target_addr obj ∈ live) then Some obj else None.
Proof.
  unfold new_WeakMeth, new_WeakRef, target_addr.
  destruct (is_method obj); repeat case_match; intros; simplify_eq; done.
Qed.

Lemma add_ok_inv (fresh : addr) (obj : pyobj) (strong : bool) (s s' : t) :
  add fresh obj strong s = (Ok (), s') →
  ∃ rid, _ref_id fresh obj = Ok rid ∧ rid ∈ _ids s' ∧
    (s' = s ∨
     ∃ ref, (rid ∉ _ids s) ∧ Ref_ref_id ref = rid ∧
       (if strong then new_StrongRef obj rid
        else if is_method obj then new_WeakMeth obj rid
        else new_WeakRef obj rid) = Ok ref ∧
       s' = {| _refs := _refs s ++ [ref]; _ids := _ids s ++ [rid] |}).
Proof.
  intros Hadd. destruct (_ref_id fresh obj) as [rid|e] eqn:Hid.
  2:{ rewrite (add_raise_ref_id _ _ _ _ _ Hid) in Hadd. done. }
  exists rid. split; [done|].
  destruct (decide (rid ∈ _ids s)) as [Hin|Hin].
  - rewrite (add_present _ _ _ _ _ Hid Hin) in Hadd. simplify_eq. auto.
  - rewrite (add_fresh _ _ _ _ _ Hid Hin) in Hadd.
    destruct (if strong then _ else _) as [ref|e] eqn:Hnew; [|done].
    simplify_eq. split; [simpl; set_solver|].
    right. exists ref. split_and!; try done. by eapply new_ref_id.
Qed.

Lemma add_ok_preserved (fresh : addr) (obj : pyobj) (strong : bool) (s s' : t) :
  WeakSet_ok s → add fresh obj strong s = (Ok (), s') → WeakSet_ok s'.
Proof.
  intros [Hal Hnd] Hadd.
  destruct (add_ok_inv _ _ _ _ _ Hadd) as (rid & _ & _ & [->|(ref & Hin & Hr & _ & ->)]);
    [done|].
  split.
  - unfold aligned in *. simpl. by rewrite fmap_app, Hal, <- Hr.
  - simpl. apply NoDup_app. split_and!; [done | | apply NoDup_singleton].
    intros x Hx ->%list_elem_of_singleton. done.
Qed.

Lemma empty_ok : WeakSet_ok empty.
Proof. split; [done | constructor]. Qed.
End weakset.

(** ** Connecting and disconnecting *)

Section connect.
Import WeakSet.

Lemma World_eta (w : World) :
  {| band := band w; heap := heap w; live := live w;
     next_id := next_id w; trace := trace w |} = w.
Proof. by destruct w. Qed.

Lemma Channel_eta (c : Channel) :
  {| identifier := identifier c; parent := parent c;
     receivers_id := receivers_id c; receivers := receivers c |} = c.
Proof. by destruct c. Qed.

Lemma with_receivers_unchanged {A} (chan : addr) (c : Channel) (m : M t A)
    (r : result A) (w : World) :
  heap w !! chan = Some c → m (receivers c) = (r, receivers c) →
  with_receivers chan m w = (r, w).
Proof.
  intros Hc Hm. unfold with_receivers. rewrite Hc, Hm.
  rewrite Channel_eta, insert_id by done. by rewrite World_eta.
Qed.

Lemma with_receivers_changed {A} (chan : addr) (c : Channel) (m : M t A)
    (r : result A) (s : t) (w : World) :
  heap w !! chan = Some c → m (receivers c) = (r, s) →
  with_receivers chan m w = (r, with_receivers_set chan s w).
Proof.
  intros Hc Hm. unfold with_receivers_set, with_receivers. rewrite Hc, Hm. done.
Qed.

Lemma _ref_id_stable (obj : pyobj) (fresh fresh' : addr) :
  computed_identity obj = false → _ref_id fresh obj = _ref_id fresh' obj.
Proof.
  unfold computed_identity, _ref_id. destruct (is_method obj); [|done].
  destruct (py_self obj) as [[self_id ?]|]; [|done].
  destruct (py_func obj) as [f_id|]; [done|]. simpl.
  by destruct (py_name obj) as [[name_id name|name]|].
Qed.

(** C5: [WeakSet.add], and with it [Channel.connect], does nothing
    when the identity it computes for the callable is already in the
    set, whatever [strong] says.  For a callable whose identity is not
    taken from a computed name (a function, a method of a Python
    class), adding it again, with any strength, after an [add] of any
    strength that returned (weakly, then with [strong=True]) leaves the
    set as the first [add] made it.  For a builtin method such as
    [print], whose identity is [(id(__self__), id(__name__))] with a
    name string built at each access, the second [add] is a no-op only
    if the interpreter builds the string at the same address again;
    otherwise it registers the callable a second time, strongly. *)
Theorem add_is_idempotent :
  (∀ fresh obj rid strong s,
     _ref_id fresh obj = Ok rid → rid ∈ _ids s →
     add fresh obj strong s = (Ok (), s)) ∧
  (∀ fresh obj rid strong chan c w,
     _ref_id fresh obj = Ok rid →
     heap w !! chan = Some c → rid ∈ _ids (receivers c) →
     Channel.connect chan fresh obj strong w = (Ok (), w)) ∧
  (∀ obj fresh0 fresh strong0 strong s0 s,
     computed_identity obj = false →
     add fresh0 obj strong0 s0 = (Ok (), s) → add fresh obj strong s = (Ok (), s)) ∧
  (let print := builtin 7 5 "print" (Ok VNone) in
   ∀ fresh0 fresh,
     add fresh0 print false empty =
       (Ok (), {| _refs := [WeakMeth "print" 5 print (IdMeth 5 fresh0)];
                  _ids := [IdMeth 5 fresh0] |}) ∧
     (fresh = fresh0 →
      add fresh print true
        {| _refs := [WeakMeth "print" 5 print (IdMeth 5 fresh0)];
           _ids := [IdMeth 5 fresh0] |} =
        (Ok (), {| _refs := [WeakMeth "print" 5 print (IdMeth 5 fresh0)];
                   _ids := [IdMeth 5 fresh0] |})) ∧
     (fresh ≠ fresh0 →
      add fresh print true
        {| _refs := [WeakMeth "print" 5 print (IdMeth 5 fresh0)];
           _ids := [IdMeth 5 fresh0] |} =
        (Ok (), {| _refs := [WeakMeth "print" 5 print (IdMeth 5 fresh0);
                             StrongRef "print" print (IdMeth 5 fresh)];
                   _ids := [IdMeth 5 fresh0; IdMeth 5 fresh] |}))).
Proof.
  split_and!.
  - intros fresh obj rid strong s Hid Hin. by apply add_present with rid.
  - intros fresh obj rid strong chan c w Hid Hc Hin. unfold Channel.connect.
    apply with_receivers_unchanged with c; [done|]. by apply add_present with rid.
  - intros obj fresh0 fresh strong0 strong s0 s Hstable Hadd.
    destruct (add_ok_inv _ _ _ _ _ Hadd) as (rid & Hid & Hin & _).
    apply add_present with rid; [|done].
    by rewrite (_ref_id_stable obj fresh fresh0).
  - intros print fresh0 fresh. split_and!.
    + reflexivity.
    + intros ->. apply add_present with (IdMeth 5 fresh0); [done | apply list_elem_of_here].
    + intros Hne. rewrite (add_fresh fresh print (IdMeth 5 fresh) true); [done | done |].
      simpl. intros [= ?]%list_elem_of_singleton. done.
Qed.

Lemma add_is_idempotent_witness :
  let f := function 7 "f" (Ok VNone) in
  let s := {| _refs := [WeakRef f (IdObj 7)]; _ids := [IdObj 7] |} in
  add 0 f false empty = (Ok (), s) ∧ add 1 f true s = (Ok (), s).
Proof.
  intros f s. split; [reflexivity|].
  destruct add_is_idempotent as (_ & _ & Hagain & _).
  apply (Hagain f 0 1 false true empty s); reflexivity.
Defined.

(** C10: [add] with [strong=True] of a callable without [__name__]
    raises [AttributeError] after the identity has been appended: the
    identity list has one entry, the reference list none.  The set then
    counts one element and yields none, a second [add] of the callable
    does nothing, and [discard] of it raises [IndexError]. *)
Theorem add_failure_not_atomic (fresh : addr) :
  let p := partial 7 (Ok VNone) in
  let s := {| _refs := []; _ids := [IdObj 7] |} in
  add fresh p true empty = (Raise AttributeError, s) ∧
  len s = 1%nat ∧ iter {[ 7 ]} s = [] ∧
  add fresh p false s = (Ok (), s) ∧
  (discard fresh p s).1 = Raise IndexError.
Proof. intros p s. split_and!; reflexivity. Qed.
End connect.

(** ** Dispatch *)

Section dispatch.
Import WeakSet Dispatcher.

(** The set a [Context] is given holds weak holders of the receivers
    it was built from, and satisfies the invariant. *)
Lemma add_all_weak (fresh : nat → addr) (l : list pyobj) (src : list pyobj)
    (s s' : WeakSet.t) :
  add_all fresh l s = (Ok (), s') →
  (∀ obj, obj ∈ l → obj ∈ src) →
  WeakSet_ok s → Forall (λ r, ∃ obj, obj ∈ src ∧ watches r obj) (_refs s) →
  WeakSet_ok s' ∧ Forall (λ r, ∃ obj, obj ∈ src ∧ watches r obj) (_refs s').
Proof.
  revert fresh s. induction l as [|x l IH]; intros fresh s Hrun Hsrc Hok Hall.
  - simpl in Hrun. munfold. by simplify_eq.
  - simpl in Hrun. munfold.
    destruct (add (fresh 0%nat) x false s) as [[[]|e] s1] eqn:Hadd; [|done].
    apply (IH (fresh ∘ S) s1 Hrun).
    + intros obj Hobj. apply Hsrc. by right.
    + by eapply add_ok_preserved.
    + destruct (add_ok_inv _ _ _ _ _ Hadd)
        as (rid & _ & _ & [->|(ref & _ & _ & Hnew & ->)]); [done|].
      simpl. apply Forall_app. split; [done|].
      apply Forall_singleton. exists x. split; [apply Hsrc; left|].
      by apply new_weak_ref with rid.
Qed.

Lemma __init___weak (fresh : nat → addr) (rs : gen pyobj) (s : WeakSet.t) :
  __init__ fresh rs = Ok s →
  WeakSet_ok s ∧ Forall (λ r, ∃ obj, obj ∈ rs.1 ∧ watches r obj) (_refs s).
Proof.
  unfold __init__.
  destruct (add_all fresh rs.1 empty) as [[[]|e] s1] eqn:Hrun; [|done].
  destruct rs.2; [done|]. intros [= <-].
  apply (add_all_weak fresh rs.1 rs.1 empty s1 Hrun); [done | apply empty_ok | constructor].
Qed.

Lemma iter_weak (live : gset addr) (src : list pyobj) (refs : list Ref) (obj : pyobj) :
  Forall (λ r, ∃ obj, obj ∈ src ∧ watches r obj) refs →
  obj ∈ omap (Ref_call live) refs →
  obj ∈ src ∧ target_addr obj ∈ live.
Proof.
  intros Hall (r & Hr & Hcall)%list_elem_of_omap.
  rewrite Forall_forall in Hall. destruct (Hall r Hr) as (obj' & Hsrc & _ & Hw).
  rewrite Hw in Hcall. case_bool_decide; [|done]. by simplify_eq.
Qed.

(** Iteration gives what the holders with a live target give. *)
Lemma Ref_call_dead (live : gset addr) (r : Ref) :
  ¬ alive_ref live r → Ref_call live r = None.
Proof.
  unfold alive_ref. destruct r; simpl; intros H; [| |done];
    by rewrite bool_decide_false.
Qed.

Lemma iter_alive (live : gset addr) (s : WeakSet.t) :
  iter live s = omap (Ref_call live) (filter (alive_ref live) (_refs s)).
Proof.
  unfold iter. induction (_refs s) as [|r l IH]; [done|].
  rewrite filter_cons. destruct (decide (alive_ref live r)) as [Hr|Hr].
  - cbn [omap list_omap]. by rewrite IH.
  - cbn [omap list_omap]. by rewrite (Ref_call_dead _ _ Hr).
Qed.

(** The loop over the receivers: either every receiver returns, and
    the results are theirs in order, or the first one that raises ends
    the loop. *)
Lemma run_receivers_spec (d : Dispatcher.t) (i : string) (todo : list pyobj)
    (args : pyargs) (kwargs : pykwargs) (ctx : Context.t) (tr : list event) :
  (∃ vs, Forall2 (λ r v, call r args kwargs = Ok v) todo vs ∧
     run_receivers d i todo args kwargs ctx tr =
       (Ok {| Context.identifier := Context.identifier ctx;
              Context.receivers := Context.receivers ctx;
              Context.args := Context.args ctx;
              Context.kwargs := Context.kwargs ctx;
              Context.results := Context.results ctx ++ vs |},
        tr ++ calls todo args kwargs)) ∨
  (∃ pre r post vs e, todo = pre ++ r :: post ∧
     Forall2 (λ r v, call r args kwargs = Ok v) pre vs ∧
     call r args kwargs = Raise e ∧
     run_receivers d i todo args kwargs ctx tr =
       (Raise e, tr ++ calls (pre ++ [r]) args kwargs)).
Proof.
  revert ctx tr. induction todo as [|x todo IH]; intros ctx tr.
  - left. exists []. split; [constructor|]. simpl. munfold.
    rewrite !app_nil_r. by destruct ctx.
  - simpl. unfold dispatch, log. munfold.
    destruct (call x args kwargs) as [v|e] eqn:Hcall.
    + destruct (IH (Context.results_append ctx v) (tr ++ [EvCall x args kwargs]))
        as [(vs & Hvs & ->)|(pre & r & post & vs & e & -> & Hvs & Hr & ->)].
      * left. exists (v :: vs). split; [by constructor|].
        unfold calls. simpl. by rewrite <- ?app_assoc.
      * right. exists (x :: pre), r, post, (v :: vs), e.
        split_and!; [done | by constructor | done |].
        unfold calls. simpl. by rewrite <- ?app_assoc.
    + right. exists [], x, todo, [], e. split_and!; [done | constructor | done | done].
Qed.

Lemma run_receivers_Ok (d : Dispatcher.t) (i : string) (todo : list pyobj)
    (args : pyargs) (kwargs : pykwargs) (ctx : Context.t) (tr : list event)
    (vs : list pyval) :
  Forall2 (λ r v, call r args kwargs = Ok v) todo vs →
  run_receivers d i todo args kwargs ctx tr =
    (Ok {| Context.identifier := Context.identifier ctx;
           Context.receivers := Context.receivers ctx;
           Context.args := Context.args ctx;
           Context.kwargs := Context.kwargs ctx;
           Context.results := Context.results ctx ++ vs |},
     tr ++ calls todo args kwargs).
Proof.
  intros Hvs. revert ctx tr. induction Hvs as [|x v todo vs Hx Hvs IH]; intros ctx tr.
  - simpl. munfold. rewrite !app_nil_r. by destruct ctx.
  - simpl. unfold dispatch, log. munfold. rewrite Hx, IH.
    unfold calls. simpl. by rewrite <- ?app_assoc.
Qed.

Lemma run_receivers_Raise (d : Dispatcher.t) (i : string) (pre post : list pyobj)
    (r : pyobj) (args : pyargs) (kwargs : pykwargs) (ctx : Context.t)
    (tr : list event) (vs : list pyval) (e : exn) :
  Forall2 (λ r v, call r args kwargs = Ok v) pre vs →
  call r args kwargs = Raise e →
  run_receivers d i (pre ++ r :: post) args kwargs ctx tr =
    (Raise e, tr ++ calls (pre ++ [r]) args kwargs).
Proof.
  intros Hvs Hr. revert ctx tr. induction Hvs as [|x v pre vs Hx Hvs IH]; intros ctx tr.
  - simpl. unfold dispatch, log. munfold. by rewrite Hr.
  - simpl. unfold dispatch, log. munfold. rewrite Hx, IH.
    unfold calls. simpl. by rewrite <- ?app_assoc.
Qed.

(** [_dispatch], step by step. *)
Lemma _dispatch_unfold (d : Dispatcher.t) (live : gset addr) (fresh : nat → addr)
    (i : string) (rs : gen pyobj) (args : pyargs) (kwargs : pykwargs)
    (tr : list event) :
  _dispatch d live fresh i rs args kwargs tr =
    match Context.__init__ fresh i rs [VTuple args; VDict kwargs] [] with
    | Raise e => (Raise e, tr)
    | Ok ctx =>
        match run_hook (before_dispatch d) EvBefore ctx tr with
        | (Raise e, tr1) => (Raise e, tr1)
        | (Ok _, tr1) =>
            match run_receivers d i (iter live (Context.receivers ctx))
                    args kwargs ctx tr1 with
            | (Raise e, tr2) => (Raise e, tr2)
            | (Ok ctx', tr2) =>
                match run_hook (after_dispatch d) EvAfter ctx' tr2 with
                | (Raise e, tr3) => (Raise e, tr3)
                | (Ok _, tr3) => (Ok (Context.results ctx'), tr3)
                end
            end
        end
    end.
Proof.
  unfold _dispatch. munfold.
  destruct (Context.__init__ _ _ _ _) as [ctx|e]; [|done].
  destruct (run_hook (before_dispatch d) EvBefore ctx tr) as [[[]|e] tr1]; [|done].
  destruct (run_receivers _ _ _ _ _ _ _) as [[ctx'|e] tr2]; [|done].
  by destruct (run_hook (after_dispatch d) EvAfter ctx' tr2) as [[[]|e] tr3].
Qed.

Lemma run_hook_trace (hook : option (Context.t → result ()))
    (ev : Context.t → event) (ctx : Context.t) (tr : list event) :
  (run_hook hook ev ctx tr).2 = tr ++ hook_event hook ev ctx.
Proof.
  unfold run_hook, hook_event, log. munfold.
  destruct hook as [h|]; simpl; [by destruct (h ctx) | by rewrite app_nil_r].
Qed.

Lemma run_hook_Ok (hook : option (Context.t → result ()))
    (ev : Context.t → event) (ctx : Context.t) (tr : list event) :
  (∀ h, hook = Some h → h ctx = Ok ()) →
  run_hook hook ev ctx tr = (Ok (), tr ++ hook_event hook ev ctx).
Proof.
  unfold run_hook, hook_event, log. munfold. intros Hh.
  destruct hook as [h|]; simpl; [by rewrite (Hh h eq_refl) | by rewrite app_nil_r].
Qed.

Lemma called_app (tr1 tr2 : list event) : called (tr1 ++ tr2) = called tr1 ++ called tr2.
Proof. unfold called. apply omap_app. Qed.

Lemma called_calls (l : list pyobj) (args : pyargs) (kwargs : pykwargs) :
  called (calls l args kwargs) = l.
Proof. unfold called, calls. induction l; simpl; [done | by f_equal]. Qed.

Lemma called_hook_event hook ev ctx :
  (ev = EvBefore ∨ ev = EvAfter) → called (hook_event hook ev ctx) = [].
Proof. unfold hook_event. intros [->| ->]; by destruct hook. Qed.

(** The receivers a dispatch calls are a prefix of what the iteration
    of the [Context]'s set gives. *)
Lemma _dispatch_called (d : Dispatcher.t) (live : gset addr) (fresh : nat → addr)
    (i : string) (rs : gen pyobj) (args : pyargs) (kwargs : pykwargs)
    (tr : list event) :
  ∃ evs, (_dispatch d live fresh i rs args kwargs tr).2 = tr ++ evs ∧
    ∀ obj, obj ∈ called evs → obj ∈ rs.1 ∧ target_addr obj ∈ live.
Proof.
  rewrite _dispatch_unfold.
  destruct (Context.__init__ _ _ _ _) as [ctx|e] eqn:Hctx.
  2:{ exists []. rewrite app_nil_r. split; [done|]. intros obj []%elem_of_nil. }
  assert (Hweak : Forall (λ r, ∃ obj, obj ∈ rs.1 ∧ watches r obj)
                    (_refs (Context.receivers ctx))).
  { unfold Context.__init__ in Hctx.
    destruct (__init__ fresh rs) as [s|] eqn:Hs; [|done]. simplify_eq. simpl.
    by eapply __init___weak. }
  pose proof (run_hook_trace (before_dispatch d) EvBefore ctx tr) as Hb.
  destruct (run_hook (before_dispatch d) EvBefore ctx tr) as [[[]|e] tr1];
    simpl in Hb; subst tr1.
  2:{ eexists. split; [done|]. rewrite called_hook_event by auto.
      intros obj []%elem_of_nil. }
  set (todo := iter live (Context.receivers ctx)).
  assert (Htodo : ∀ obj, obj ∈ todo → obj ∈ rs.1 ∧ target_addr obj ∈ live).
  { intros obj Hobj. by eapply iter_weak. }
  destruct (run_receivers_spec d i todo args kwargs ctx
              (tr ++ hook_event (before_dispatch d) EvBefore ctx))
    as [(vs & _ & ->)|(pre & r & post & vs & e & Hsplit & _ & _ & ->)].
  - match goal with |- context [run_hook ?h ?ev ?c ?t] =>
      pose proof (run_hook_trace h ev c t) as Ha;
      destruct (run_hook h ev c t) as [[[]|e] tr3] end;
      simpl in Ha; subst tr3; rewrite <- !app_assoc;
      (eexists; split; [done|]);
      rewrite !called_app, called_calls, !called_hook_event by auto;
      simpl; rewrite app_nil_r; apply Htodo.
  - rewrite <- !app_assoc. eexists; split; [done|].
    rewrite called_app, called_calls, called_hook_event by auto. simpl.
    intros obj Hobj. apply Htodo. rewrite Hsplit.
    rewrite !elem_of_app in *. destruct Hobj as [?|?%list_elem_of_singleton];
      [by left | right; subst; left].
Qed.
End dispatch.

(** ** Sends through a channel *)

Section send.
Import WeakSet Dispatcher.

Lemma _dispatch_Raise (d : Dispatcher.t) (live : gset addr) (fresh : nat → addr)
    (i : string) (rs : gen pyobj) (args : pyargs) (kwargs : pykwargs) (tr : list event)
    (ctx : Context.t) (pre post : list pyobj) (r : pyobj) (vs : list pyval) (e : exn) :
  Context.__init__ fresh i rs [VTuple args; VDict kwargs] [] = Ok ctx →
  (∀ h, before_dispatch d = Some h → h ctx = Ok ()) →
  iter live (Context.receivers ctx) = pre ++ r :: post →
  Forall2 (λ r v, call r args kwargs = Ok v) pre vs →
  call r args kwargs = Raise e →
  _dispatch d live fresh i rs args kwargs tr =
    (Raise e, tr ++ hook_event (before_dispatch d) EvBefore ctx
                 ++ calls (pre ++ [r]) args kwargs).
Proof.
  intros Hctx Hb Hiter Hpre Hr. rewrite _dispatch_unfold, Hctx.
  rewrite (run_hook_Ok _ _ _ _ Hb), Hiter.
  rewrite (run_receivers_Raise _ _ _ _ _ _ _ _ _ _ _ Hpre Hr).
  by rewrite <- app_assoc.
Qed.

Lemma _dispatch_Ok (d : Dispatcher.t) (live : gset addr) (fresh : nat → addr)
    (i : string) (rs : gen pyobj) (args : pyargs) (kwargs : pykwargs) (tr : list event)
    (ctx : Context.t) (vs : list pyval) :
  Context.__init__ fresh i rs [VTuple args; VDict kwargs] [] = Ok ctx →
  before_dispatch d = None → after_dispatch d = None →
  Forall2 (λ r v, call r args kwargs = Ok v) (iter live (Context.receivers ctx)) vs →
  _dispatch d live fresh i rs args kwargs tr =
    (Ok vs, tr ++ calls (iter live (Context.receivers ctx)) args kwargs).
Proof.
  intros Hctx Hb Ha Hvs. rewrite _dispatch_unfold, Hctx, Hb, Ha.
  unfold run_hook at 1. munfold.
  rewrite (run_receivers_Ok _ _ _ _ _ _ _ _ Hvs).
  unfold run_hook. munfold. simpl.
  unfold Context.__init__ in Hctx. destruct (__init__ fresh rs); [|done].
  by simplify_eq.
Qed.

(** [get_channel_receivers] returns its generator; it leaves the
    heap, the live objects, the trace and the allocator alone, and of
    the band it can only give [by_identifier] an empty list for an
    identifier that had none. *)
Lemma by_identifier_get_spec (i : string) (w : World) :
  ∃ w', Band.by_identifier_get i w = (Ok (default [] (by_identifier (band w) !! i)), w') ∧
    heap w' = heap w ∧ live w' = live w ∧ trace w' = trace w ∧
    next_id w' = next_id w ∧ dispatcher (band w') = dispatcher (band w) ∧
    channels (band w') = channels (band w) ∧
    by_parent (band w') = by_parent (band w) ∧
    by_identifier (band w') =
      match by_identifier (band w) !! i with
      | Some _ => by_identifier (band w)
      | None => <[i := []]> (by_identifier (band w))
      end.
Proof.
  unfold Band.by_identifier_get, defaultdict_get.
  destruct (by_identifier (band w) !! i) as [l|] eqn:Hl; simpl;
    eexists; split_and!; done.
Qed.

Lemma get_channel_receivers_frame (chan : addr) (w : World) :
  ∃ gs w', Band.get_channel_receivers chan w = (Ok gs, w') ∧
    heap w' = heap w ∧ live w' = live w ∧ trace w' = trace w ∧
    next_id w' = next_id w ∧ dispatcher (band w') = dispatcher (band w) ∧
    channels (band w') = channels (band w) ∧
    by_parent (band w') = by_parent (band w) ∧
    (by_identifier (band w') = by_identifier (band w) ∨
     ∃ i, by_identifier (band w) !! i = None ∧
          by_identifier (band w') = <[i := []]> (by_identifier (band w))).
Proof.
  unfold Band.get_channel_receivers. munfold.
  destruct (heap w !! chan) as [c|]; [|by eexists _, _; split_and!; eauto].
  destruct (bound c).
  - repeat case_match; eexists _, _; split_and!; eauto.
  - destruct (by_identifier_get_spec (identifier c) w)
      as (w' & -> & ? & ? & ? & ? & ? & ? & ? & Hbi).
    destruct (Band.other_receivers w' chan _) as [groups e].
    eexists _, _; split_and!; eauto.
    destruct (by_identifier (band w) !! identifier c) eqn:Hl; [by left|].
    right. by exists (identifier c).
Qed.

Lemma get_receivers_frame (chan : addr) (w : World) :
  ∃ rs w', Channel.get_receivers chan w = (Ok rs, w') ∧
    heap w' = heap w ∧ live w' = live w ∧ trace w' = trace w ∧
    next_id w' = next_id w ∧ dispatcher (band w') = dispatcher (band w) ∧
    channels (band w') = channels (band w) ∧
    by_parent (band w') = by_parent (band w) ∧
    (by_identifier (band w') = by_identifier (band w) ∨
     ∃ i, by_identifier (band w) !! i = None ∧
          by_identifier (band w') = <[i := []]> (by_identifier (band w))).
Proof.
  destruct (get_channel_receivers_frame chan w) as (gs & w' & Hg & H).
  unfold Channel.get_receivers. munfold. rewrite Hg.
  eexists _, w'. split; [done|]. done.
Qed.

Lemma Band_dispatch_unfold (fresh : nat → addr) (i : string) (rs : gen pyobj)
    (args : pyargs) (kwargs : pykwargs) (w : World) :
  Band.dispatch fresh i rs args kwargs w =
    ((_dispatch (dispatcher (band w)) (live w) fresh i rs args kwargs (trace w)).1,
     with_trace_set
       (_dispatch (dispatcher (band w)) (live w) fresh i rs args kwargs (trace w)).2 w).
Proof.
  unfold Band.dispatch, with_trace. munfold.
  by destruct (_dispatch _ _ _ _ _ _ _).
Qed.

Lemma Channel_send_unfold (chan : addr) (fresh : nat → addr) (c : Channel)
    (args : pyargs) (kwargs : pykwargs) (w w1 : World) (rs : gen pyobj) :
  heap w !! chan = Some c →
  Channel.get_receivers chan w = (Ok rs, w1) →
  Channel.send chan fresh args kwargs w =
    Band.dispatch fresh (identifier c) rs args kwargs w1.
Proof.
  intros Hc Hrs. unfold Channel.send. munfold. by rewrite Hc, Hrs.
Qed.
End send.

(** ** Claims on dispatch *)

Section dispatch_claims.
Import WeakSet Dispatcher.

Lemma Channel_send_called (chan : addr) (fresh : nat → addr) (args : pyargs)
    (kwargs : pykwargs) (w : World) :
  ∃ evs, trace (Channel.send chan fresh args kwargs w).2 = trace w ++ evs ∧
    ∀ obj, obj ∈ called evs → target_addr obj ∈ live w.
Proof.
  destruct (heap w !! chan) as [c|] eqn:Hc.
  - destruct (get_receivers_frame chan w) as (rs & w1 & Hrs & _ & Hlive & Htr & _).
    rewrite (Channel_send_unfold _ _ _ _ _ _ _ _ Hc Hrs), Band_dispatch_unfold.
    destruct (_dispatch_called (dispatcher (band w1)) (live w1) fresh (identifier c)
                rs args kwargs (trace w1)) as (evs & -> & Hevs).
    exists evs. simpl. rewrite Htr. split; [done|].
    intros obj Hobj. rewrite <- Hlive. by apply Hevs.
  - exists []. unfold Channel.send. munfold. rewrite Hc. simpl.
    rewrite app_nil_r. split; [done|]. intros obj []%elem_of_nil.
Qed.

(** C7: when a receiver raises during a send through a channel, after
    the receivers before it have returned, the send raises that
    exception and returns no list; the trace holds the call of the
    "before" hook if there is one, the calls of the receivers up to the
    one that raised, and nothing else: the receivers after it are not
    called and the "after" hook does not run. *)
Theorem receiver_exception_propagates (chan : addr) (fresh : nat → addr)
    (c : Channel) (w w1 : World)
    (rs : gen pyobj) (args : pyargs) (kwargs : pykwargs) (ctx : Context.t)
    (pre post : list pyobj) (r : pyobj) (vs : list pyval) (e : exn) :
  heap w !! chan = Some c →
  Channel.get_receivers chan w = (Ok rs, w1) →
  Context.__init__ fresh (identifier c) rs [VTuple args; VDict kwargs] [] = Ok ctx →
  (∀ h, before_dispatch (dispatcher (band w1)) = Some h → h ctx = Ok ()) →
  iter (live w1) (Context.receivers ctx) = pre ++ r :: post →
  Forall2 (λ r v, call r args kwargs = Ok v) pre vs →
  call r args kwargs = Raise e →
  Channel.send chan fresh args kwargs w =
    (Raise e,
     with_trace_set
       (trace w1 ++ hook_event (before_dispatch (dispatcher (band w1))) EvBefore ctx
                 ++ calls (pre ++ [r]) args kwargs) w1) ∧
  called (calls (pre ++ [r]) args kwargs) = pre ++ [r].
Proof.
  intros Hc Hrs Hctx Hb Hiter Hpre Hr. split; [|apply called_calls].
  rewrite (Channel_send_unfold _ _ _ _ _ _ _ _ Hc Hrs), Band_dispatch_unfold.
  by rewrite (_dispatch_Raise _ _ _ _ _ _ _ _ _ _ _ _ _ _ Hctx Hb Hiter Hpre Hr).
Qed.
End dispatch_claims.

Section dispatch_examples.
Import WeakSet Dispatcher.

Lemma receiver_exception_propagates_witness :
  let f := function 7 "f" (Ok VNone) in
  let g := function 9 "g" (Raise (UserError "boom")) in
  let h := function 11 "h" (Ok VNone) in
  let w := connected DEFAULT_DISPATCHER [f; g; h] in
  Channel.send 1 (λ _, 0) [] [] w =
    (Raise (UserError "boom"), with_trace_set (calls [f; g] [] []) w).
Proof.
  intros f g h w.
  refine (proj1 (receiver_exception_propagates 1 (λ _, 0) _ w w _ [] [] _ [f] [h] g [VNone]
            (UserError "boom") _ _ _ _ _ _ _)).
  - reflexivity.
  - reflexivity.
  - reflexivity.
  - intros h0 Hh. discriminate Hh.
  - reflexivity.
  - repeat constructor.
  - reflexivity.
Defined.

(** What [_dispatch] puts in the [Context]: the pair of the positional
    and the keyword arguments as [args], nothing as [kwargs]. *)
Lemma Context_of__dispatch (fresh : nat → addr) (i : string) (rs : gen pyobj)
    (args : pyargs) (kwargs : pykwargs) (ctx : Context.t) :
  Context.__init__ fresh i rs [VTuple args; VDict kwargs] [] = Ok ctx →
  Context.identifier ctx = i ∧
  Context.args ctx = [VTuple args; VDict kwargs] ∧
  Context.kwargs ctx = [] ∧
  Context.results ctx = [].
Proof.
  unfold Context.__init__. destruct (__init__ fresh rs); [|done]. by intros [= <-].
Qed.

Lemma pyval_size_args (args : pyargs) (kwargs : pykwargs) :
  [VTuple args; VDict kwargs] ≠ args.
Proof.
  intros Heq.
  assert (Hsz : (foldr (λ x n, pyval_size x + n) 0 args <
                 foldr (λ x n, pyval_size x + n) 0 [VTuple args; VDict kwargs])%nat).
  { simpl. lia. }
  rewrite Heq in Hsz. lia.
Qed.

(** C4: in the [Context] the hooks receive, [args] is not the
    positional arguments of the send but the pair made of them and of
    the keyword arguments, and [kwargs] is empty: a send of [(1,)] and
    [{'a': 2}] shows the "before" hook [args = ((1,), {'a': 2})] and
    [kwargs = {}].  The rest of the claim holds there: the identifier,
    the order hook, receiver, hook, the receiver called with the
    arguments of the send, its result in [results] for the "after"
    hook. *)
Theorem Context_arguments_misplaced (fresh : nat → addr) :
  let f := function 7 "f" (Ok (VInt 0)) in
  let w := connected hooked [f] in
  let args := [VInt 1] in
  let kwargs := [("a"%string, VInt 2)] in
  ∃ ctx ctx',
    Channel.send 1 fresh args kwargs w =
      (Ok [VInt 0],
       with_trace_set [EvBefore ctx; EvCall f args kwargs; EvAfter ctx'] w) ∧
    Context.identifier ctx = "x"%string ∧
    Context.args ctx = [VTuple [VInt 1]; VDict [("a"%string, VInt 2)]] ∧
    Context.kwargs ctx = [] ∧
    Context.results ctx = [] ∧
    iter (live w) (Context.receivers ctx) = [f] ∧
    Context.args ctx' = [VTuple [VInt 1]; VDict [("a"%string, VInt 2)]] ∧
    Context.kwargs ctx' = [] ∧
    Context.results ctx' = [VInt 0] ∧
    Context.args ctx ≠ args ∧ Context.kwargs ctx ≠ kwargs.
Proof.
  intros f w args kwargs. eexists _, _. split; [reflexivity|].
  split_and!; try reflexivity; simpl; discriminate.
Qed.
End dispatch_examples.

(** ** The band *)

Section band.

Lemma list_remove_absent {A} `{EqDecision A} (x : A) (l : list A) :
  x ∉ l → list_remove x l = l.
Proof.
  induction l as [|y l IH]; intros Hin; [done|]. simpl.
  rewrite decide_False by (intros ->; apply Hin; left).
  f_equal. apply IH. intros ?. apply Hin. by right.
Qed.

Lemma list_remove_NoDup {A} `{EqDecision A} (x : A) (l : list A) :
  NoDup l → list_remove x l = filter (λ y, y ≠ x) l.
Proof.
  induction 1 as [|y l Hy Hnd IH]; [done|]. simpl.
  destruct (decide (x = y)) as [->|Hne].
  - rewrite filter_cons_False by (intros ?; done).
    symmetry. apply filter_all. intros z Hz ->. done.
  - rewrite filter_cons_True by done. by rewrite IH.
Qed.

Lemma id_of_owner_attr (parent : option owner) :
  default id_None (owner_id <$> parent) = id_of parent.
Proof. by destruct parent. Qed.

Lemma new_Channel_spec (i : string) (parent : option owner) (w : World) :
  Band.new_Channel i parent w =
    if proxyable parent then
      (Ok (next_id w),
       {| band := band w;
          heap := <[next_id w := {| identifier := i; parent := owner_id <$> parent;
                                    receivers_id := next_id w + 1;
                                    receivers := WeakSet.empty |}]> (heap w);
          live := {[next_id w + 1]} ∪ live w;
          next_id := next_id w + 2;
          trace := trace w |})
    else (Raise TypeError, w).
Proof.
  unfold Band.new_Channel, proxyable, set_heap, set_live, set_next_id. munfold.
  destruct parent as [[oid truthy wr]|]; simpl; [|done].
  destruct truthy, wr; done.
Qed.

Lemma by_parent_get_spec (p : addr) (w : World) :
  Band.by_parent_get p w =
    (Ok (default ∅ (by_parent (band w) !! p)),
     with_band (λ b, {| dispatcher := dispatcher b; channels := channels b;
                        by_parent := match by_parent b !! p with
                                     | Some _ => by_parent b
                                     | None => <[p := ∅]> (by_parent b)
                                     end;
                        by_identifier := by_identifier b |}) w).
Proof.
  unfold Band.by_parent_get, defaultdict_get, with_band.
  by destruct (by_parent (band w) !! p).
Qed.

Lemma by_identifier_get_eq (i : string) (w : World) :
  Band.by_identifier_get i w =
    (Ok (default [] (by_identifier (band w) !! i)),
     with_band (λ b, {| dispatcher := dispatcher b; channels := channels b;
                        by_parent := by_parent b;
                        by_identifier := match by_identifier b !! i with
                                         | Some _ => by_identifier b
                                         | None => <[i := []]> (by_identifier b)
                                         end |}) w).
Proof.
  unfold Band.by_identifier_get, defaultdict_get, with_band.
  by destruct (by_identifier (band w) !! i).
Qed.

(** [_remove_channel] returns and leaves the band without the key. *)
Lemma _remove_channel_spec (ref : ChanRef) (w : World) :
  Band._remove_channel ref w =
    (Ok (), with_band (Band_unregistered (ref_key ref)) w).
Proof.
  unfold Band._remove_channel. destruct (ref_key ref) as [i p] eqn:Hkey. munfold.
  rewrite by_identifier_get_eq.
  unfold Band.set_by_identifier, Band.set_by_parent, Band.set_channels, set_band.
  munfold.
  destruct w as [[d ch bp bi] hp lv nx tr]. unfold with_band, Band_unregistered.
  simpl.
  destruct (bi !! i) as [l|] eqn:Hl; simpl.
  - case_bool_decide as Hin.
    + rewrite by_identifier_get_eq. simpl. rewrite Hl. simpl.
      rewrite by_parent_get_spec. simpl. unfold with_band. simpl.
      destruct (bp !! p) as [m|] eqn:Hm; simpl; [done|].
      by rewrite insert_insert_eq.
    + rewrite by_parent_get_spec. simpl. unfold with_band. simpl.
      rewrite (list_remove_absent _ _ Hin), (insert_id bi i l) by done.
      destruct (bp !! p) as [m|] eqn:Hm; simpl; [done|].
      by rewrite insert_insert_eq.
  - rewrite by_parent_get_spec. simpl. unfold with_band. simpl.
    destruct (bp !! p) as [m|] eqn:Hm; simpl; [done|].
    by rewrite insert_insert_eq.
Qed.

(** The three cases of [channel]. *)
Lemma channel_registered (i : string) (parent : option owner) (w : World)
    (ref : ChanRef) :
  channels (band w) !! (i, id_of parent) = Some ref →
  Band.channel i parent w = (Ok (Band.deref w ref), w).
Proof.
  intros Href. unfold Band.channel. munfold.
  rewrite bool_decide_true by (apply elem_of_dom; eauto). simpl.
  by rewrite Href.
Qed.

Lemma channel_refused (i : string) (parent : option owner) (w : World) :
  channels (band w) !! (i, id_of parent) = None → proxyable parent = false →
  Band.channel i parent w = (Raise TypeError, w).
Proof.
  intros Href Hp. unfold Band.channel. munfold.
  rewrite bool_decide_false by (rewrite elem_of_dom, Href; by intros [? ?]).
  simpl. by rewrite new_Channel_spec, Hp.
Qed.

Lemma channel_created (i : string) (parent : option owner) (w : World) :
  channels (band w) !! (i, id_of parent) = None → proxyable parent = true →
  Band.channel i parent w =
    (Ok (Some (next_id w)), World_created i (owner_id <$> parent) w).
Proof.
  intros Href Hp. unfold Band.channel. munfold.
  rewrite bool_decide_false by (rewrite elem_of_dom, Href; by intros [? ?]).
  simpl. rewrite new_Channel_spec, Hp.
  unfold Band.set_by_identifier, Band.set_by_parent, Band.set_channels, set_band.
  munfold. rewrite by_parent_get_spec. simpl.
  rewrite by_identifier_get_eq. simpl.
  rewrite lookup_insert_eq.
  unfold Band.deref. simpl.
  rewrite bool_decide_true by (rewrite dom_insert; set_solver).
  f_equal. unfold World_created, Band_registered, with_band.
  rewrite id_of_owner_attr. simpl.
  destruct w as [[d ch bp bi] hp lv nx tr]. simpl in *.
  f_equal. f_equal.
  - destruct (bp !! id_of parent); simpl; [done | by rewrite insert_insert_eq].
  - destruct (bi !! i); simpl; [done | by rewrite insert_insert_eq].
Qed.
End band.

(** ** The registry invariant *)

Section registry.

Lemma registry_ok_empty (d : Dispatcher.t) :
  registry_ok {| dispatcher := d; channels := ∅; by_parent := ∅; by_identifier := ∅ |}.
Proof.
  split; simpl.
  - intros k. rewrite lookup_empty. split; [by intros [? ?]|].
    intros (m & Hm & _). by rewrite lookup_empty in Hm.
  - intros p m i k Hm. by rewrite lookup_empty in Hm.
  - intros k. rewrite lookup_empty. split; [by intros [? ?]|].
    intros (l & Hl & _). by rewrite lookup_empty in Hl.
  - intros i l k Hl. by rewrite lookup_empty in Hl.
  - intros i l Hl. by rewrite lookup_empty in Hl.
Qed.

Lemma registry_ok_registered (k : key) (chan : addr) (b : Band) :
  registry_ok b → channels b !! k = None → registry_ok (Band_registered k chan b).
Proof.
  intros [Hp Hpk Hi Hik Hnd] Hk. destruct k as [i p].
  assert (Hnotp : ∀ m, by_parent b !! p = Some m → m !! i = None).
  { intros m Hm. destruct (m !! i) as [k'|] eqn:Hmi; [|done].
    pose proof (Hpk _ _ _ _ Hm Hmi) as ->.
    assert (is_Some (channels b !! (i, p))) as [? ?]; [|congruence].
    apply Hp. eauto. }
  assert (Hnoti : ∀ l, by_identifier b !! i = Some l → (i, p) ∉ l).
  { intros l Hl Hin.
    assert (is_Some (channels b !! (i, p))) as [? ?]; [|congruence].
    apply Hi. eauto. }
  split; simpl.
  - intros [i' p']. simpl. destruct (decide ((i, p) = (i', p'))) as [[= <- <-]|Hne].
    + rewrite !lookup_insert_eq. split; [|eauto].
      intros _. eexists. split; [done|]. by rewrite lookup_insert_eq.
    + rewrite lookup_insert_ne by done. rewrite Hp. simpl.
      destruct (decide (p = p')) as [<-|Hpne].
      * rewrite lookup_insert_eq.
        assert (i ≠ i') by congruence.
        destruct (by_parent b !! p) as [m|] eqn:Hm; simpl.
        -- split; intros (m' & Hm' & Hl); simplify_eq.
           ++ eexists. split; [done|]. by rewrite lookup_insert_ne.
           ++ rewrite lookup_insert_ne in Hl by done. eauto.
        -- split; intros (m' & Hm' & Hl); simplify_eq.
           rewrite lookup_insert_ne, lookup_empty in Hl by done. done.
      * by rewrite lookup_insert_ne.
  - intros p' m i' k'. destruct (decide (p = p')) as [<-|Hpne].
    + rewrite lookup_insert_eq. intros [= <-].
      destruct (decide (i = i')) as [<-|Hine].
      * rewrite lookup_insert_eq. by intros [= <-].
      * rewrite lookup_insert_ne by done.
        destruct (by_parent b !! p) as [m|] eqn:Hm; simpl.
        -- by apply Hpk.
        -- by rewrite lookup_empty.
    + rewrite lookup_insert_ne by done. apply Hpk.
  - intros [i' p']. simpl. destruct (decide ((i, p) = (i', p'))) as [[= <- <-]|Hne].
    + rewrite !lookup_insert_eq. split; [|eauto].
      intros _. eexists. split; [done|]. apply elem_of_app. right. left.
    + rewrite lookup_insert_ne by done. rewrite Hi. simpl.
      destruct (decide (i = i')) as [<-|Hine].
      * rewrite lookup_insert_eq.
        destruct (by_identifier b !! i) as [l|] eqn:Hl; simpl.
        -- split; intros (l' & Hl' & Hin); simplify_eq.
           ++ eexists. split; [done|]. apply elem_of_app. by left.
           ++ apply elem_of_app in Hin as [Hin|Hin%list_elem_of_singleton];
                [eauto | congruence].
        -- split; intros (l' & Hl' & Hin); simplify_eq.
           apply list_elem_of_singleton in Hin. congruence.
      * by rewrite lookup_insert_ne.
  - intros i' l k'. destruct (decide (i = i')) as [<-|Hine].
    + rewrite lookup_insert_eq. intros [= <-].
      intros [Hin|Hin%list_elem_of_singleton]%elem_of_app; [|by subst].
      destruct (by_identifier b !! i) as [l|] eqn:Hl; simpl in Hin.
      * by eapply Hik.
      * by apply elem_of_nil in Hin.
    + rewrite lookup_insert_ne by done. apply Hik.
  - intros i' l. destruct (decide (i = i')) as [<-|Hine].
    + rewrite lookup_insert_eq. intros [= <-].
      destruct (by_identifier b !! i) as [l|] eqn:Hl; simpl.
      * apply NoDup_app. split_and!; [by eapply Hnd | | apply NoDup_singleton].
        intros x Hx ->%list_elem_of_singleton. by eapply Hnoti.
      * apply NoDup_singleton.
    + rewrite lookup_insert_ne by done. apply Hnd.
Qed.
Lemma registry_ok_touched (i : string) (b : Band) :
  registry_ok b → by_identifier b !! i = None →
  registry_ok {| dispatcher := dispatcher b; channels := channels b;
                 by_parent := by_parent b;
                 by_identifier := <[i := []]> (by_identifier b) |}.
Proof.
  intros [Hp Hpk Hi Hik Hnd] Hnone. split; simpl; [done | done | | |].
  - intros k. rewrite Hi. destruct (decide (i = k.1)) as [->|Hne].
    + rewrite lookup_insert_eq, Hnone. split; intros (l & Hl & Hin); simplify_eq.
      by apply elem_of_nil in Hin.
    + by rewrite lookup_insert_ne.
  - intros i' l k. destruct (decide (i = i')) as [<-|Hne].
    + rewrite lookup_insert_eq. intros [= <-] Hin. by apply elem_of_nil in Hin.
    + rewrite lookup_insert_ne by done. apply Hik.
  - intros i' l. destruct (decide (i = i')) as [<-|Hne].
    + rewrite lookup_insert_eq. intros [= <-]. constructor.
    + rewrite lookup_insert_ne by done. apply Hnd.
Qed.

Lemma registry_ok_unregistered (k : key) (b : Band) :
  registry_ok b → registry_ok (Band_unregistered k b).
Proof.
  intros [Hp Hpk Hi Hik Hnd]. destruct k as [i p]. split; simpl.
  - intros [i' p']. simpl. destruct (decide ((i, p) = (i', p'))) as [[= <- <-]|Hne].
    + rewrite lookup_delete_eq, lookup_insert_eq. split; [by intros [? ?]|].
      intros (m & [= <-] & Hl). by rewrite lookup_delete_eq in Hl.
    + rewrite lookup_delete_ne by done. rewrite Hp. simpl.
      destruct (decide (p = p')) as [<-|Hpne].
      * rewrite lookup_insert_eq.
        assert (i ≠ i') by congruence.
        destruct (by_parent b !! p) as [m|] eqn:Hm; simpl.
        -- split; intros (m' & Hm' & Hl); simplify_eq.
           ++ eexists. split; [done|]. by rewrite lookup_delete_ne.
           ++ rewrite lookup_delete_ne in Hl by done. eauto.
        -- split; intros (m' & Hm' & Hl); simplify_eq;
           rewrite ?lookup_delete_ne, ?lookup_empty in Hl by done; done.
      * by rewrite lookup_insert_ne.
  - intros p' m i' k'. destruct (decide (p = p')) as [<-|Hpne].
    + rewrite lookup_insert_eq. intros [= <-].
      destruct (decide (i = i')) as [<-|Hine].
      * by rewrite lookup_delete_eq.
      * rewrite lookup_delete_ne by done.
        destruct (by_parent b !! p) as [m|] eqn:Hm; simpl.
        -- by apply Hpk.
        -- by rewrite lookup_empty.
    + rewrite lookup_insert_ne by done. apply Hpk.
  - intros [i' p']. simpl. destruct (decide ((i, p) = (i', p'))) as [[= <- <-]|Hne].
    + rewrite lookup_delete_eq, lookup_insert_eq. split; [by intros [? ?]|].
      intros (l & [= <-] & Hin). exfalso.
      destruct (by_identifier b !! i) as [l|] eqn:Hl; simpl in Hin.
      * rewrite (list_remove_NoDup _ _ (Hnd _ _ Hl)) in Hin.
        apply list_elem_of_filter in Hin as [? _]. done.
      * by apply elem_of_nil in Hin.
    + rewrite lookup_delete_ne by done. rewrite Hi. simpl.
      destruct (decide (i = i')) as [<-|Hine].
      * rewrite lookup_insert_eq.
        destruct (by_identifier b !! i) as [l|] eqn:Hl; simpl.
        -- rewrite (list_remove_NoDup _ _ (Hnd _ _ Hl)).
           split; intros (l' & Hl' & Hin); simplify_eq.
           ++ eexists. split; [done|]. apply list_elem_of_filter. split; [|done].
              congruence.
           ++ apply list_elem_of_filter in Hin as [_ Hin]. eauto.
        -- split; intros (l' & Hl' & Hin); simplify_eq.
           by apply elem_of_nil in Hin.
      * by rewrite lookup_insert_ne.
  - intros i' l k'. destruct (decide (i = i')) as [<-|Hine].
    + rewrite lookup_insert_eq. intros [= <-].
      destruct (by_identifier b !! i) as [l|] eqn:Hl; simpl.
      * rewrite (list_remove_NoDup _ _ (Hnd _ _ Hl)).
        intros [_ Hin]%list_elem_of_filter. by eapply Hik.
      * by intros ?%elem_of_nil.
    + rewrite lookup_insert_ne by done. apply Hik.
  - intros i' l. destruct (decide (i = i')) as [<-|Hine].
    + rewrite lookup_insert_eq. intros [= <-].
      destruct (by_identifier b !! i) as [l|] eqn:Hl; simpl.
      * rewrite (list_remove_NoDup _ _ (Hnd _ _ Hl)). apply NoDup_filter. by eapply Hnd.
      * constructor.
    + rewrite lookup_insert_ne by done. apply Hnd.
Qed.

(** After [_remove_channel], no index holds the key any more. *)
Lemma unregistered_absent (k : key) (b : Band) :
  registry_ok b →
  channels (Band_unregistered k b) !! k = None ∧
  (∀ m, by_parent (Band_unregistered k b) !! k.2 = Some m → m !! k.1 = None) ∧
  (∀ l, by_identifier (Band_unregistered k b) !! k.1 = Some l → k ∉ l).
Proof.
  intros Hok. simpl. split_and!.
  - apply lookup_delete_eq.
  - intros m. rewrite lookup_insert_eq. intros [= <-]. apply lookup_delete_eq.
  - intros l. rewrite lookup_insert_eq. intros [= <-].
    destruct (by_identifier b !! k.1) as [l|] eqn:Hl; simpl.
    + rewrite (list_remove_NoDup _ _ (by_identifier_NoDup _ Hok _ _ Hl)).
      intros [? _]%list_elem_of_filter. done.
    + apply not_elem_of_nil.
Qed.
End registry.

(** ** The world invariant *)

Section world.

Lemma registry_ok_ext (b b' : Band) :
  registry_ok b →
  channels b' = channels b → by_parent b' = by_parent b →
  (by_identifier b' = by_identifier b ∨
   ∃ i, by_identifier b !! i = None ∧ by_identifier b' = <[i := []]> (by_identifier b)) →
  registry_ok b'.
Proof.
  intros Hok Hch Hbp Hbi. destruct b' as [d' ch' bp' bi']. simpl in *. subst.
  destruct Hbi as [->|(i & Hnone & ->)].
  - destruct Hok. by split.
  - destruct (registry_ok_touched i b Hok Hnone). by split.
Qed.

(** The invariant looks at the indices, the heap (identifier and parent
    of each channel) and the allocator only. *)
Lemma world_ok_ext (w w' : World) :
  world_ok w →
  (∀ a, (λ c, (identifier c, parent c)) <$> heap w' !! a =
        (λ c, (identifier c, parent c)) <$> heap w !! a) →
  next_id w' = next_id w →
  channels (band w') = channels (band w) → by_parent (band w') = by_parent (band w) →
  (by_identifier (band w') = by_identifier (band w) ∨
   ∃ i, by_identifier (band w) !! i = None ∧
        by_identifier (band w') = <[i := []]> (by_identifier (band w))) →
  world_ok w'.
Proof.
  intros [Hreg Hrefs Hheap Hpar Hnext] Hh Hn Hch Hbp Hbi.
  assert (Hto : ∀ a c', heap w' !! a = Some c' →
            ∃ c, heap w !! a = Some c ∧ identifier c = identifier c' ∧
                 parent c = parent c').
  { intros a c' Hc'. specialize (Hh a). rewrite Hc' in Hh.
    destruct (heap w !! a) as [c|]; simpl in Hh; [|done]. exists c. by simplify_eq. }
  assert (Hfrom : ∀ a c, heap w !! a = Some c →
            ∃ c', heap w' !! a = Some c' ∧ identifier c = identifier c' ∧
                  parent c = parent c').
  { intros a c Hc. specialize (Hh a). rewrite Hc in Hh.
    destruct (heap w' !! a) as [c'|]; simpl in Hh; [|done]. exists c'. by simplify_eq. }
  split.
  - by eapply registry_ok_ext.
  - intros k ref. rewrite Hch. intros Href.
    destruct (Hrefs _ _ Href) as (Hk & c & Hc & Hkey). split; [done|].
    destruct (Hfrom _ _ Hc) as (c' & Hc' & Hi & Hp). exists c'. split; [done|].
    unfold key_of in *. by rewrite <- Hi, <- Hp.
  - intros a c' Hc'. destruct (Hto _ _ Hc') as (c & Hc & Hi & Hp).
    rewrite Hch. unfold key_of. rewrite <- Hi, <- Hp. by apply Hheap.
  - intros a c' p Hc' Hp'. destruct (Hto _ _ Hc') as (c & Hc & Hi & Hp).
    apply (Hpar a c p Hc). by rewrite Hp.
  - intros a [c' Hc']. rewrite Hn. destruct (Hto _ _ Hc') as (c & Hc & _).
    apply Hnext. eauto.
Qed.

Lemma world_ok_init (d : Dispatcher.t) : world_ok (Band.__init__ d).
Proof.
  split; simpl.
  - apply registry_ok_empty.
  - intros k ref Href. by rewrite lookup_empty in Href.
  - intros a c Hc. by rewrite lookup_empty in Hc.
  - intros a c p Hc. by rewrite lookup_empty in Hc.
  - intros a [c Hc]. by rewrite lookup_empty in Hc.
Qed.

Lemma world_ok_created (i : string) (parent : option owner) (w : World) :
  world_ok w → channels (band w) !! (i, id_of parent) = None → owner_ok parent →
  world_ok (World_created i (owner_id <$> parent) w).
Proof.
  intros [Hreg Hrefs Hheap Hpar Hnext] Hnone Howner.
  assert (Hfresh : heap w !! next_id w = None).
  { destruct (heap w !! next_id w) eqn:Hc; [|done].
    assert (next_id w < next_id w) by (apply Hnext; eauto). lia. }
  unfold World_created. rewrite id_of_owner_attr. split; simpl.
  - by apply registry_ok_registered.
  - intros k ref. destruct (decide ((i, id_of parent) = k)) as [<-|Hne].
    + rewrite lookup_insert_eq. intros [= <-]. simpl. split; [done|].
      eexists. rewrite lookup_insert_eq. split; [done|].
      unfold key_of. simpl. by rewrite id_of_owner_attr.
    + rewrite lookup_insert_ne by done. intros Href.
      destruct (Hrefs _ _ Href) as (Hk & c & Hc & Hkey). split; [done|].
      exists c. split; [|done]. rewrite lookup_insert_ne; [done|].
      intros Heq. rewrite <- Heq in Hc. congruence.
  - intros a c. destruct (decide (next_id w = a)) as [<-|Hne].
    + rewrite lookup_insert_eq. intros [= <-]. unfold key_of. simpl.
      rewrite id_of_owner_attr, lookup_insert_eq. eauto.
    + rewrite lookup_insert_ne by done. intros Hc.
      destruct (Hheap _ _ Hc) as (ref & Href & Hchan).
      exists ref. split; [|done]. rewrite lookup_insert_ne; [done|].
      intros Heq. rewrite <- Heq in Href. congruence.
  - intros a c p. destruct (decide (next_id w = a)) as [<-|Hne].
    + rewrite lookup_insert_eq. intros [= <-]. simpl.
      destruct parent as [o|]; simpl; [|done]. by intros [= <-].
    + rewrite lookup_insert_ne by done. apply Hpar.
  - intros a. destruct (decide (next_id w = a)) as [<-|Hne]; [lia|].
    rewrite lookup_insert_ne by done. intros Ha. specialize (Hnext a Ha). lia.
Qed.

Lemma channel_cases (i : string) (parent : option owner) (w : World) :
  (∃ ref, channels (band w) !! (i, id_of parent) = Some ref ∧
          Band.channel i parent w = (Ok (Band.deref w ref), w)) ∨
  (channels (band w) !! (i, id_of parent) = None ∧ proxyable parent = false ∧
   Band.channel i parent w = (Raise TypeError, w)) ∨
  (channels (band w) !! (i, id_of parent) = None ∧ proxyable parent = true ∧
   Band.channel i parent w =
     (Ok (Some (next_id w)), World_created i (owner_id <$> parent) w)).
Proof.
  destruct (channels (band w) !! (i, id_of parent)) as [ref|] eqn:Href.
  - left. exists ref. split; [done|]. by apply channel_registered.
  - right. destruct (proxyable parent) eqn:Hp.
    + right. split_and!; [done | done |]. by apply channel_created.
    + left. split_and!; [done | done |]. by apply channel_refused.
Qed.

Lemma world_ok_channel (i : string) (parent : option owner) (w : World) :
  world_ok w → owner_ok parent → world_ok (Band.channel i parent w).2.
Proof.
  intros Hok Howner.
  destruct (channel_cases i parent w)
    as [(ref & _ & ->)|[(_ & _ & ->)|(Hnone & _ & ->)]]; simpl; [done | done |].
  by apply world_ok_created.
Qed.

Lemma world_ok_with_receivers {A} (chan : addr) (m : M WeakSet.t A) (w : World) :
  world_ok w → world_ok (with_receivers chan m w).2.
Proof.
  intros Hok. unfold with_receivers.
  destruct (heap w !! chan) as [c|] eqn:Hc; [|done].
  destruct (m (receivers c)) as [r s]. simpl.
  apply (world_ok_ext w); simpl; try done; [|by left].
  intros a. destruct (decide (chan = a)) as [<-|Hne].
  - by rewrite lookup_insert_eq, Hc.
  - by rewrite lookup_insert_ne.
Qed.

Lemma world_ok_collect_object (a : addr) (w : World) :
  world_ok w → world_ok (collect_object a w).2.
Proof.
  intros Hok. unfold collect_object, set_live, set_heap. munfold. simpl.
  apply (world_ok_ext w); simpl; try done; [|by left].
  intros a'. rewrite lookup_fmap. by destruct (heap w !! a').
Qed.

Lemma world_ok_get_channel_receivers (chan : addr) (w : World) :
  world_ok w → world_ok (Band.get_channel_receivers chan w).2.
Proof.
  intros Hok.
  destruct (get_channel_receivers_frame chan w)
    as (gs & w' & -> & Hh & _ & _ & Hn & _ & Hch & Hbp & Hbi).
  simpl. apply (world_ok_ext w); try done. intros a'. by rewrite Hh.
Qed.

Lemma world_ok_dispatch (fresh : nat → addr) (i : string) (rs : gen pyobj)
    (args : pyargs) (kwargs : pykwargs) (w : World) :
  world_ok w → world_ok (Band.dispatch fresh i rs args kwargs w).2.
Proof.
  intros Hok. rewrite Band_dispatch_unfold. simpl.
  apply (world_ok_ext w); simpl; try done. by left.
Qed.

Lemma world_ok_Channel_send (chan : addr) (fresh : nat → addr) (args : pyargs)
    (kwargs : pykwargs) (w : World) :
  world_ok w → world_ok (Channel.send chan fresh args kwargs w).2.
Proof.
  intros Hok. destruct (heap w !! chan) as [c|] eqn:Hc.
  - destruct (get_receivers_frame chan w) as (rs & w1 & Hrs & Hh & _ & _ & Hn & _ & Hch & Hbp & Hbi).
    rewrite (Channel_send_unfold _ _ _ _ _ _ _ _ Hc Hrs).
    apply world_ok_dispatch. apply (world_ok_ext w); try done.
    intros a'. by rewrite Hh.
  - unfold Channel.send. munfold. by rewrite Hc.
Qed.

Lemma world_ok_Band_send (fresh : nat → addr) (i : string) (args : pyargs)
    (parent : option owner) (kwargs : pykwargs) (w : World) :
  world_ok w → owner_ok parent → world_ok (Band.send fresh i args parent kwargs w).2.
Proof.
  intros Hok Howner. pose proof (world_ok_channel i parent w Hok Howner) as Hok1.
  unfold Band.send. munfold.
  destruct (Band.channel i parent w) as [[chan|e] w1]; simpl in *; [|done].
  destruct chan as [chan|].
  - pose proof (world_ok_get_channel_receivers chan w1 Hok1) as Hok2.
    destruct (Band.get_channel_receivers chan w1) as [[gs|e] w2]; simpl in *; [|done].
    by apply world_ok_dispatch.
  - simpl. by destruct w1.
Qed.

Lemma world_ok_collect_channel (chan : addr) (w : World) :
  world_ok w → world_ok (collect_channel chan w).2.
Proof.
  intros Hok. unfold collect_channel, set_heap, set_live. munfold.
  destruct (heap w !! chan) as [c|] eqn:Hc; [|done]. simpl.
  destruct Hok as [Hreg Hrefs Hheap Hpar Hnext].
  destruct (Hheap _ _ Hc) as (ref & Href & Hchan). rewrite Href.
  rewrite decide_True by done. rewrite _remove_channel_spec. simpl.
  destruct (Hrefs _ _ Href) as (Hkey & _). rewrite Hkey.
  unfold with_band. split; simpl.
  - by apply registry_ok_unregistered.
  - intros k ref'. destruct (decide (key_of c = k)) as [<-|Hne].
    + by rewrite lookup_delete_eq.
    + rewrite lookup_delete_ne by done. intros Href'.
      destruct (Hrefs _ _ Href') as (Hk & c' & Hc' & Hkey'). split; [done|].
      exists c'. split; [|done]. rewrite lookup_delete_ne; [done|].
      intros Heq. rewrite <- Heq in Hc'. congruence.
  - intros a c'. destruct (decide (chan = a)) as [<-|Hne].
    + by rewrite lookup_delete_eq.
    + rewrite lookup_delete_ne by done. intros Hc'.
      destruct (Hheap _ _ Hc') as (ref' & Href' & Hchan').
      exists ref'. split; [|done]. rewrite lookup_delete_ne; [done|].
      intros Heq. rewrite <- Heq in Href'. congruence.
  - intros a c' p. destruct (decide (chan = a)) as [<-|Hne].
    + by rewrite lookup_delete_eq.
    + rewrite lookup_delete_ne by done. apply Hpar.
  - intros a. destruct (decide (chan = a)) as [<-|Hne].
    + rewrite lookup_delete_eq. by intros [? ?].
    + rewrite lookup_delete_ne by done. apply Hnext.
Qed.

Lemma world_ok_holding (obj : pyobj) (w : World) :
  world_ok w → world_ok (holding obj w).2.
Proof.
  intros Hok. unfold holding, set_live. munfold. simpl.
  apply (world_ok_ext w); simpl; try done. by left.
Qed.

Lemma world_ok_run_op (o : op) (w : World) :
  world_ok w → op_ok o → world_ok (run_op o w).
Proof.
  intros Hok Hop.
  destruct o as [i p|fresh i args p kwargs|chan fresh args kwargs
                 |chan fresh obj strong|chan fresh obj|chan|a]; simpl in *.
  - by apply world_ok_channel.
  - by apply world_ok_Band_send.
  - by apply world_ok_Channel_send.
  - munfold. simpl. by apply world_ok_with_receivers, world_ok_holding.
  - munfold. simpl. by apply world_ok_with_receivers, world_ok_holding.
  - by apply world_ok_collect_channel.
  - case_bool_decide; [done | by apply world_ok_collect_object].
Qed.

Lemma reachable_world_ok (d : Dispatcher.t) (w : World) :
  reachable d w → world_ok w.
Proof.
  induction 1 as [|w o _ IH Hop]; [apply world_ok_init | by apply world_ok_run_op].
Qed.
End world.

(** ** Claims on the registry *)

Section registry_claims.

Lemma elem_of_keys_by_parent (k : key) (b : Band) :
  k ∈ keys_by_parent b ↔ ∃ p m i, by_parent b !! p = Some m ∧ m !! i = Some k.
Proof.
  unfold keys_by_parent. rewrite elem_of_union_list. split.
  - intros (X & HX & Hk). apply list_elem_of_fmap in HX as (m & -> & Hm).
    apply list_elem_of_fmap in Hm as ([p m'] & -> & Hpm).
    apply elem_of_map_to_list in Hpm. apply elem_of_map_img in Hk as (i & Hi).
    by exists p, m', i.
  - intros (p & m & i & Hm & Hi). exists (map_img m). split.
    + apply list_elem_of_fmap. exists m. split; [done|].
      apply list_elem_of_fmap. exists (p, m). split; [done|].
      by apply elem_of_map_to_list.
    + apply elem_of_map_img. by exists i.
Qed.

Lemma elem_of_keys_by_identifier (k : key) (b : Band) :
  k ∈ keys_by_identifier b ↔ ∃ i l, by_identifier b !! i = Some l ∧ k ∈ l.
Proof.
  unfold keys_by_identifier. rewrite elem_of_union_list. split.
  - intros (X & HX & Hk). apply list_elem_of_fmap in HX as (l & -> & Hl).
    apply list_elem_of_fmap in Hl as ([i l'] & -> & Hil).
    apply elem_of_map_to_list in Hil. apply elem_of_list_to_set in Hk.
    by exists i, l'.
  - intros (i & l & Hl & Hk). exists (list_to_set l). split.
    + apply list_elem_of_fmap. exists l. split; [done|].
      apply list_elem_of_fmap. exists (i, l). split; [done|].
      by apply elem_of_map_to_list.
    + by apply elem_of_list_to_set.
Qed.

Lemma registry_ok_keys (b : Band) :
  registry_ok b →
  keys_by_parent b = keys_channels b ∧ keys_by_identifier b = keys_channels b.
Proof.
  intros [Hp Hpk Hi Hik Hnd]. unfold keys_channels. split; apply set_eq; intros k.
  - rewrite elem_of_keys_by_parent, elem_of_dom, Hp. split.
    + intros (p & m & i & Hm & Hl). pose proof (Hpk _ _ _ _ Hm Hl) as ->. eauto.
    + intros (m & Hm & Hl). eauto.
  - rewrite elem_of_keys_by_identifier, elem_of_dom, Hi. split.
    + intros (i & l & Hl & Hin). pose proof (Hik _ _ _ Hl Hin) as <-. eauto.
    + intros (l & Hl & Hin). eauto.
Qed.

(** C8: in every world a program reaches, the three indices of the band
    refer to the same keys, and no list of [by_identifier] holds a key
    twice; there, [_remove_channel] takes the key of its reference out
    of the three indices, no occurrence being left in the list of
    [by_identifier], and the collection of a channel does so for the key
    of that channel. *)
Theorem registry_consistent (d : Dispatcher.t) (w : World) :
  reachable d w →
  keys_by_parent (band w) = keys_channels (band w) ∧
  keys_by_identifier (band w) = keys_channels (band w) ∧
  (∀ i l, by_identifier (band w) !! i = Some l → NoDup l) ∧
  (∀ ref,
     let b' := band (Band._remove_channel ref w).2 in
     (ref_key ref ∉ keys_channels b') ∧
     (ref_key ref ∉ keys_by_parent b') ∧
     (ref_key ref ∉ keys_by_identifier b') ∧
     (∀ l, by_identifier b' !! (ref_key ref).1 = Some l → ref_key ref ∉ l) ∧
     keys_by_parent b' = keys_channels b' ∧
     keys_by_identifier b' = keys_channels b') ∧
  (∀ chan c,
     heap w !! chan = Some c →
     let b' := band (collect_channel chan w).2 in
     (key_of c ∉ keys_channels b') ∧
     (key_of c ∉ keys_by_parent b') ∧
     (key_of c ∉ keys_by_identifier b')).
Proof.
  intros Hreach. pose proof (reachable_world_ok d w Hreach) as Hok.
  pose proof (world_registry w Hok) as Hreg.
  destruct (registry_ok_keys _ Hreg) as [Hkp Hki].
  assert (Hrm : ∀ k, let b' := Band_unregistered k (band w) in
            (k ∉ keys_channels b') ∧ (k ∉ keys_by_parent b') ∧
            (k ∉ keys_by_identifier b') ∧
            (∀ l, by_identifier b' !! k.1 = Some l → k ∉ l) ∧
            keys_by_parent b' = keys_channels b' ∧
            keys_by_identifier b' = keys_channels b').
  { intros k b'.
    pose proof (registry_ok_unregistered k _ Hreg) as Hreg'.
    destruct (registry_ok_keys _ Hreg') as [Hkp' Hki'].
    destruct (unregistered_absent k _ Hreg) as (Hch & _ & Hl).
    assert (Hnot : k ∉ keys_channels b').
    { unfold keys_channels. rewrite elem_of_dom. fold b' in Hch. rewrite Hch.
      by intros [? ?]. }
    subst b'. rewrite Hkp', Hki'. split_and!; done. }
  split_and!; [done | done | apply (by_identifier_NoDup _ Hreg) | |].
  - intros ref. rewrite _remove_channel_spec. simpl. apply Hrm.
  - intros chan c Hc. simpl.
    pose proof (world_ok_collect_channel chan w Hok) as Hok'.
    destruct (registry_ok_keys _ (world_registry _ Hok')) as [Hkp' Hki'].
    rewrite Hkp', Hki'.
    assert (Hnot : key_of c ∉ keys_channels (band (collect_channel chan w).2));
      [|done].
    unfold collect_channel, set_heap, set_live. munfold. rewrite Hc. simpl.
    destruct (world_heap w Hok _ _ Hc) as (ref & Href & Hchan). rewrite Href.
    rewrite decide_True by done. rewrite _remove_channel_spec. simpl.
    destruct (world_refs w Hok _ _ Href) as (-> & _).
    unfold keys_channels. simpl. rewrite elem_of_dom, lookup_delete_eq.
    by intros [? ?].
Qed.

Lemma registry_consistent_witness :
  let d := Dispatcher.DEFAULT_DISPATCHER in
  let w := run_op (OpCollectChannel 1)
             (run_op (OpChannel "x" (Some (Owner 101 true true)))
                (run_op (OpChannel "x" None) (Band.__init__ d))) in
  keys_by_parent (band w) = keys_channels (band w) ∧
  keys_by_identifier (band w) = keys_channels (band w) ∧
  keys_channels (band w) = {[ ("x"%string, 101) ]}.
Proof.
  intros d w.
  assert (Hreach : reachable d w).
  { repeat apply reachable_step; try exact I; [apply reachable_init|].
    simpl. discriminate. }
  destruct (registry_consistent d w Hreach) as (Hp & Hi & _).
  split_and!; [exact Hp | exact Hi | reflexivity].
Defined.

(** C3: when [band.channel(i, o)] returns a channel, which the caller
    then holds, the next call with the same arguments returns the same
    object (the same address) and changes nothing; this for [o] [None]
    and for any owner. *)
Theorem channel_returns_same_object (i : string) (parent : option owner)
    (w w1 : World) (chan : addr) :
  Band.channel i parent w = (Ok (Some chan), w1) →
  Band.channel i parent w1 = (Ok (Some chan), w1) ∧
  is_Some (heap w1 !! chan).
Proof.
  intros Hfirst.
  destruct (channel_cases i parent w)
    as [(ref & Href & Heq)|[(_ & _ & Heq)|(Hnone & _ & Heq)]];
    rewrite Heq in Hfirst.
  - injection Hfirst as Hderef <-. split; [by rewrite Heq, Hderef|].
    unfold Band.deref in Hderef. case_bool_decide as Hin; [|done].
    injection Hderef as <-. by apply elem_of_dom.
  - done.
  - injection Hfirst as <- <-. split.
    + erewrite channel_registered.
      2:{ simpl. rewrite id_of_owner_attr. apply lookup_insert_eq. }
      unfold Band.deref. simpl.
      rewrite bool_decide_true; [done|]. rewrite dom_insert. set_solver.
    + simpl. rewrite lookup_insert_eq. eauto.
Qed.

Lemma channel_returns_same_object_witness :
  let w := Band.__init__ Dispatcher.DEFAULT_DISPATCHER in
  let o := Owner 101 true true in
  let w1 := (Band.channel "x" (Some o) w).2 in
  let w2 := (Band.channel "x" None w1).2 in
  Band.channel "x" (Some o) w1 = (Ok (Some 1), w1) ∧
  Band.channel "x" None w2 = (Ok (Some 3), w2).
Proof.
  intros w o w1 w2. split.
  - apply (channel_returns_same_object "x" (Some o) w w1 1). vm_compute. reflexivity.
  - apply (channel_returns_same_object "x" None w1 w2 3). vm_compute. reflexivity.
Defined.
End registry_claims.

(** ** Alignment of the receiver sets *)

Section alignment.
Import WeakSet.

Lemma without_fresh (rid : ref_id) (s : WeakSet.t) :
  aligned s → rid ∉ _ids s → without rid s = s.
Proof.
  intros Hal Hin. destruct s as [refs ids]. unfold aligned in Hal. simpl in *.
  subst ids. unfold without. simpl. f_equal.
  - apply filter_all. intros r Hr Heq. apply Hin. rewrite <- Heq.
    by apply list_elem_of_fmap_2.
  - apply filter_all. by intros x Hx ->.
Qed.

Lemma _remove_ref_ok (ref : Ref) (s : WeakSet.t) :
  WeakSet_ok s → _remove_ref ref s = (Ok (), without (Ref_ref_id ref) s).
Proof.
  intros Hok. destruct (decide (Ref_ref_id ref ∈ _ids s)) as [Hin|Hin].
  - by apply _remove_ref_without.
  - rewrite (without_fresh _ _ (proj1 Hok) Hin). by apply _remove_ref_absent.
Qed.

Lemma discard_cases (fresh : addr) (obj : pyobj) (s : WeakSet.t) :
  WeakSet_ok s →
  (∃ e, _ref_id fresh obj = Raise e ∧ discard fresh obj s = (Raise e, s)) ∨
  (∃ rid, _ref_id fresh obj = Ok rid ∧ discard fresh obj s = (Ok (), without rid s)).
Proof.
  intros Hok. destruct (_ref_id fresh obj) as [rid|e] eqn:Hid.
  - right. exists rid. split; [done|].
    rewrite (discard_as_remove _ _ _ _ Hid).
    by apply (_remove_ref_ok (WeakRef obj rid)).
  - left. exists e. split; [done|]. unfold discard. munfold. by rewrite Hid.
Qed.

(** The callbacks of the holders [l], one after the other. *)
Lemma callbacks_spec (l : list Ref) (s : WeakSet.t) :
  WeakSet_ok s →
  ∃ s', for_each l (λ r, ignore_exn (_remove_ref r)) s = (Ok (), s') ∧
        WeakSet_ok s' ∧
        _refs s' = filter (λ r, Ref_ref_id r ∉ Ref_ref_id <$> l) (_refs s).
Proof.
  revert s. induction l as [|r l IH]; intros s Hok.
  - exists s. split_and!; [done | done |]. symmetry. apply filter_all.
    intros x _. apply not_elem_of_nil.
  - simpl. munfold. rewrite (_remove_ref_ok r s Hok). simpl.
    destruct (IH (without (Ref_ref_id r) s) (without_ok _ _ Hok))
      as (s' & -> & Hok' & Hrefs).
    exists s'. split_and!; [done | done |]. rewrite Hrefs. simpl.
    rewrite list_filter_filter. apply list_filter_iff. intros x.
    rewrite not_elem_of_cons. tauto.
Qed.

Lemma holder_unique (s : WeakSet.t) (r r' : Ref) :
  WeakSet_ok s → r ∈ _refs s → r' ∈ _refs s → Ref_ref_id r = Ref_ref_id r' → r = r'.
Proof.
  intros [Hal Hnd] Hr Hr' Heq. rewrite Hal in Hnd.
  apply list_elem_of_lookup in Hr as [i Hi]. apply list_elem_of_lookup in Hr' as [j Hj].
  assert (i = j) as ->; [|congruence].
  apply (NoDup_lookup _ i j (Ref_ref_id r) Hnd).
  - by rewrite list_lookup_fmap, Hi.
  - by rewrite list_lookup_fmap, Hj, Heq.
Qed.

Lemma filter_ext_in {A} (P Q : A → Prop) `{∀ x, Decision (P x)} `{∀ x, Decision (Q x)}
    (l : list A) :
  (∀ x, x ∈ l → P x ↔ Q x) → filter P l = filter Q l.
Proof.
  induction l as [|x l IH]; intros Hext; [done|].
  rewrite !filter_cons.
  assert (Hl : filter P l = filter Q l).
  { apply IH. intros y Hy. apply Hext. by right. }
  destruct (decide (P x)) as [HP|HP], (decide (Q x)) as [HQ|HQ];
    rewrite ?Hl; try done; exfalso.
  - apply HQ, (Hext x); [left | done].
  - apply HP, (Hext x); [left | done].
Qed.

(** When the object at [a] dies, the callbacks of the holders that
    watch it take their entries, and no other, out of a set whose
    lists are aligned. *)
Lemma on_collect_spec (a : addr) (s : WeakSet.t) :
  WeakSet_ok s →
  on_collect a s = (Ok (), unwatched a s) ∧ WeakSet_ok (unwatched a s).
Proof.
  intros Hok. unfold on_collect, mbind, M_bind, get.
  destruct (callbacks_spec (filter (λ r, weak_target r = Some a) (_refs s)) s Hok)
    as (s' & -> & Hok' & Hrefs).
  assert (Heq : s' = unwatched a s).
  { destruct s' as [refs' ids']. destruct Hok' as [Hal' _].
    unfold aligned in Hal'. simpl in *. subst ids'. unfold unwatched.
    assert (Hf : refs' = filter (λ r, weak_target r ≠ Some a) (_refs s)).
    { rewrite Hrefs. apply filter_ext_in. intros x Hx.
      rewrite list_elem_of_fmap. split.
      - intros Hnot Hwt. apply Hnot. exists x. split; [done|].
        by apply list_elem_of_filter.
      - intros Hwt (y & Hid & [Hy Hin]%list_elem_of_filter).
        apply Hwt. by rewrite (holder_unique s x y Hok Hx Hin Hid). }
    by rewrite Hf. }
  split; [by rewrite Heq | by rewrite <- Heq].
Qed.
End alignment.

(** ** The receiver sets in the worlds of a program *)

Section sets.
Import WeakSet.

Lemma sets_ok_init (d : Dispatcher.t) : sets_ok (Band.__init__ d).
Proof. intros chan c Hc. simpl in Hc. by rewrite lookup_empty in Hc. Qed.

Lemma sets_ok_ext (w w' : World) :
  sets_ok w →
  (∀ chan c', heap w' !! chan = Some c' →
     ∃ c, heap w !! chan = Some c ∧ receivers c' = receivers c) →
  sets_ok w'.
Proof.
  intros Hok Hheap chan c' Hc'. destruct (Hheap _ _ Hc') as (c & Hc & ->).
  by apply (Hok chan).
Qed.

Lemma sets_ok_heap (w w' : World) : sets_ok w → heap w' = heap w → sets_ok w'.
Proof. intros Hok Hheap. apply (sets_ok_ext w); [done|]. rewrite Hheap. eauto. Qed.

Lemma sets_ok_channel (i : string) (p : option owner) (w : World) :
  sets_ok w → sets_ok (Band.channel i p w).2.
Proof.
  intros Hok. destruct (channel_cases i p w)
    as [(ref & _ & ->)|[(_ & _ & ->)|(_ & _ & ->)]]; simpl; [done | done |].
  intros chan c. simpl. destruct (decide (next_id w = chan)) as [<-|Hne].
  - rewrite lookup_insert_eq. intros [= <-]. apply empty_ok.
  - rewrite lookup_insert_ne by done. apply Hok.
Qed.

Lemma sets_ok_with_receivers {A} (chan : addr) (m : M WeakSet.t A) (w : World) :
  sets_ok w →
  (∀ c, heap w !! chan = Some c → WeakSet_ok (m (receivers c)).2) →
  sets_ok (with_receivers chan m w).2.
Proof.
  intros Hok Hm. unfold with_receivers.
  destruct (heap w !! chan) as [c|] eqn:Hc; [|done].
  specialize (Hm c eq_refl). destruct (m (receivers c)) as [r s]. simpl in *.
  intros chan' c'. simpl. destruct (decide (chan = chan')) as [<-|Hne].
  - rewrite lookup_insert_eq. by intros [= <-].
  - rewrite lookup_insert_ne by done. apply Hok.
Qed.

Lemma sets_ok_Channel_send (chan : addr) (fresh : nat → addr) (args : pyargs)
    (kwargs : pykwargs) (w : World) :
  sets_ok w → sets_ok (Channel.send chan fresh args kwargs w).2.
Proof.
  intros Hok. destruct (heap w !! chan) as [c|] eqn:Hc.
  - destruct (get_receivers_frame chan w) as (rs & w1 & Hrs & Hh & _).
    rewrite (Channel_send_unfold _ _ _ _ _ _ _ _ Hc Hrs), Band_dispatch_unfold.
    simpl. by apply (sets_ok_heap w).
  - unfold Channel.send. munfold. by rewrite Hc.
Qed.

Lemma sets_ok_Band_send (fresh : nat → addr) (i : string) (args : pyargs)
    (p : option owner) (kwargs : pykwargs) (w : World) :
  sets_ok w → sets_ok (Band.send fresh i args p kwargs w).2.
Proof.
  intros Hok. pose proof (sets_ok_channel i p w Hok) as Hok1.
  unfold Band.send. munfold.
  destruct (Band.channel i p w) as [[chan|e] w1]; simpl in *; [|done].
  destruct chan as [chan|].
  - destruct (get_channel_receivers_frame chan w1) as (gs & w2 & -> & Hh & _).
    simpl. rewrite Band_dispatch_unfold. simpl. by apply (sets_ok_heap w1).
  - rewrite Band_dispatch_unfold. by simpl.
Qed.

Lemma sets_ok_collect_channel (chan : addr) (w : World) :
  sets_ok w → sets_ok (collect_channel chan w).2.
Proof.
  intros Hok. unfold collect_channel, set_heap, set_live. munfold.
  destruct (heap w !! chan) as [c|] eqn:Hc; [|done]. simpl.
  assert (Hdel : ∀ w', heap w' = delete chan (heap w) → sets_ok w').
  { intros w' Hw'. apply (sets_ok_ext w); [done|]. rewrite Hw'.
    intros a c' [_ Hc']%lookup_delete_Some. eauto. }
  destruct (channels (band w) !! key_of c) as [ref|]; [|by apply Hdel].
  destruct (decide _); [|by apply Hdel].
  rewrite _remove_channel_spec. by apply Hdel.
Qed.

Lemma collect_object_heap (a : addr) (w : World) (chan : addr) :
  heap (collect_object a w).2 !! chan =
    (λ c, {| identifier := identifier c; parent := parent c;
             receivers_id := receivers_id c;
             receivers := (on_collect a (receivers c)).2 |}) <$> heap w !! chan.
Proof. unfold collect_object, set_live, set_heap. munfold. simpl. apply lookup_fmap. Qed.

Lemma sets_ok_collect_object (a : addr) (w : World) :
  sets_ok w → sets_ok (collect_object a w).2.
Proof.
  intros Hok chan c'. rewrite collect_object_heap.
  destruct (heap w !! chan) as [c|] eqn:Hc; simpl; [|done]. intros [= <-]. simpl.
  destruct (on_collect_spec a (receivers c) (Hok _ _ Hc)) as [-> Hok']. done.
Qed.

(** Every operation keeps the receiver sets aligned, a [connect] that
    raises apart. *)
Lemma sets_ok_run_op (o : op) (w : World) :
  sets_ok w →
  match o with
  | OpConnect chan fresh obj strong =>
      (Channel.connect chan fresh obj strong w).1 = Ok ()
  | _ => True
  end →
  sets_ok (run_op o w).
Proof.
  intros Hok Hret.
  destruct o as [i p|fresh i args p kwargs|chan fresh args kwargs
                 |chan fresh obj strong|chan fresh obj|chan|a]; simpl.
  - by apply sets_ok_channel.
  - by apply sets_ok_Band_send.
  - by apply sets_ok_Channel_send.
  - unfold holding, set_live. munfold. simpl.
    apply sets_ok_with_receivers; [by apply (sets_ok_heap w)|].
    simpl. intros c Hc. unfold Channel.connect, with_receivers in Hret.
    rewrite Hc in Hret.
    destruct (add fresh obj strong (receivers c)) as [[[]|e] s] eqn:Hadd;
      simpl in *; [|done].
    eapply add_ok_preserved; [by apply (Hok chan)|done].
  - unfold holding, set_live. munfold. simpl.
    apply sets_ok_with_receivers; [by apply (sets_ok_heap w)|].
    simpl. intros c Hc.
    destruct (discard_cases fresh obj (receivers c) (Hok _ _ Hc))
      as [(e & _ & ->)|(rid & _ & ->)]; simpl;
      [by apply (Hok chan) | by apply without_ok, (Hok chan)].
  - by apply sets_ok_collect_channel.
  - case_bool_decide; [done | by apply sets_ok_collect_object].
Qed.

Lemma sets_ok_run_ops (ops : list op) (w : World) :
  sets_ok w → connects_return ops w → sets_ok (run_ops ops w).
Proof.
  revert w. induction ops as [|o ops IH]; intros w Hok Hret; [done|].
  destruct Hret as [Ho Hrest]. simpl. apply IH; [|done].
  by apply sets_ok_run_op.
Qed.

Lemma reachable_run_ops (d : Dispatcher.t) (ops : list op) (w : World) :
  reachable d w → Forall op_ok ops → reachable d (run_ops ops w).
Proof.
  revert w. induction ops as [|o ops IH]; intros w Hw Hops; [done|].
  apply Forall_cons in Hops as [Ho Hops]. simpl. apply IH; [|done].
  by apply reachable_step.
Qed.
End sets.

(** ** Claims on connecting, disconnecting and dead receivers *)

Section connect_claims.
Import WeakSet Dispatcher.

(** C6: connecting a receiver whose identity is in the set and
    disconnecting one whose identity is not return without an error
    and change nothing; in a set whose two lists are aligned,
    disconnecting a receiver whose identity is there returns without an
    error and takes out the one entry of that identity, the other
    entries staying as they are and in their order; the sets of every
    world of a program are aligned as long as no [connect] has raised.
    After a [connect] that raised (a strong one of a callable without
    [__name__]) this is lost: [disconnect] of that callable, which was
    never connected, raises [IndexError], and once [f] and [g] are
    connected, [disconnect(f)] returns, keeps [f] and drops [g].  And a
    builtin method, whose identity changes with the address of its name
    string, is not found by [disconnect] and stays connected. *)
Theorem connect_disconnect_silent :
  (∀ fresh obj rid strong chan c w,
     _ref_id fresh obj = Ok rid →
     heap w !! chan = Some c → rid ∈ _ids (receivers c) →
     Channel.connect chan fresh obj strong w = (Ok (), w)) ∧
  (∀ fresh obj rid chan c w,
     _ref_id fresh obj = Ok rid →
     heap w !! chan = Some c → rid ∉ _ids (receivers c) →
     Channel.disconnect chan fresh obj w = (Ok (), w)) ∧
  (∀ fresh obj rid chan c w,
     _ref_id fresh obj = Ok rid →
     heap w !! chan = Some c → WeakSet_ok (receivers c) → rid ∈ _ids (receivers c) →
     Channel.disconnect chan fresh obj w =
       (Ok (), with_receivers_set chan (without rid (receivers c)) w) ∧
     S (length (_refs (without rid (receivers c)))) = length (_refs (receivers c)) ∧
     ∃ refs1 r refs2,
       _refs (receivers c) = refs1 ++ r :: refs2 ∧ Ref_ref_id r = rid ∧
       _refs (without rid (receivers c)) = refs1 ++ refs2) ∧
  (∀ d ops,
     connects_return ops (Band.__init__ d) →
     sets_ok (run_ops ops (Band.__init__ d))) ∧
  (∀ d,
     let p := partial 5 (Ok VNone) in
     let f := function 7 "f" (Ok VNone) in
     let g := function 9 "g" (Ok VNone) in
     let w0 := run_ops [OpChannel "x" None] (Band.__init__ d) in
     let w1 := run_ops [OpConnect 1 0 p true] w0 in
     let w3 := run_ops [OpConnect 1 0 f false; OpConnect 1 0 g false] w1 in
     reachable d w3 ∧
     (Channel.connect 1 0 p true w0).1 = Raise AttributeError ∧
     (Channel.disconnect 1 0 p w1).1 = Raise IndexError ∧
     Channel.disconnect 1 0 f w3 =
       (Ok (), with_receivers_set 1
                 {| _refs := [WeakRef f (IdObj 7)]; _ids := [IdObj 5; IdObj 9] |} w3)) ∧
  (∀ d,
     let print := builtin 11 13 "print" (Ok VNone) in
     let w := run_ops [OpChannel "x" None; OpConnect 1 100 print false]
                (Band.__init__ d) in
     Channel.disconnect 1 101 print w = (Ok (), w) ∧
     ∃ c, heap w !! 1 = Some c ∧
          receivers c = {| _refs := [WeakMeth "print" 13 print (IdMeth 13 100)];
                           _ids := [IdMeth 13 100] |}).
Proof.
  split_and!.
  - intros fresh obj rid strong chan c w Hid Hc Hin. unfold Channel.connect.
    apply with_receivers_unchanged with c; [done|]. by apply add_present with rid.
  - intros fresh obj rid chan c w Hid Hc Hin. unfold Channel.disconnect.
    apply with_receivers_unchanged with c; [done|].
    rewrite (discard_as_remove _ _ _ _ Hid). by apply _remove_ref_absent.
  - intros fresh obj rid chan c w Hid Hc Hok Hin.
    assert (Hrm : discard fresh obj (receivers c) = (Ok (), without rid (receivers c))).
    { rewrite (discard_as_remove _ _ _ _ Hid).
      by apply (_remove_ref_without (WeakRef obj rid)). }
    split; [by apply with_receivers_changed with c|].
    destruct Hok as [Hal Hnd].
    destruct (_remove_ref_present (WeakRef obj rid) _ Hal Hin)
      as (refs1 & r & refs2 & Hrefs & Hr & _ & Hrm').
    rewrite <- (discard_as_remove _ _ _ _ Hid), Hrm in Hrm'.
    assert (Hw := f_equal snd Hrm'). cbn [snd] in Hw. rewrite Hw. simpl. split.
    + rewrite Hrefs, !length_app. simpl. lia.
    + by exists refs1, r, refs2.
  - intros d ops. apply sets_ok_run_ops, sets_ok_init.
  - intros d p f g w0 w1 w3. split_and!.
    + repeat apply reachable_run_ops; try apply reachable_init;
        by repeat constructor.
    + vm_compute. reflexivity.
    + vm_compute. reflexivity.
    + vm_compute. reflexivity.
  - intros d print w. split; [vm_compute; reflexivity|].
    eexists. split; vm_compute; reflexivity.
Qed.

Lemma connect_disconnect_silent_witness :
  let f := function 7 "f" (Ok VNone) in
  let g := function 9 "g" (Ok VNone) in
  let w := connected DEFAULT_DISPATCHER [f; g] in
  Channel.connect 1 0 f true w = (Ok (), w) ∧
  Channel.disconnect 1 0 f w =
    (Ok (), with_receivers_set 1 {| _refs := [WeakRef g (IdObj 9)]; _ids := [IdObj 9] |} w) ∧
  sets_ok w.
Proof.
  intros f g w.
  destruct connect_disconnect_silent as (Hconn & _ & Hdisc & Hsets & _).
  split_and!.
  - apply (Hconn 0 f (IdObj 7) true 1 _ w eq_refl eq_refl). apply list_elem_of_here.
  - refine (proj1 (Hdisc 0 f (IdObj 7) 1 _ w eq_refl eq_refl _ _)).
    + split; [reflexivity|]. apply (bool_decide_unpack _). reflexivity.
    + apply list_elem_of_here.
  - apply (Hsets DEFAULT_DISPATCHER
             [OpChannel "x" None; OpConnect 1 0 f false; OpConnect 1 0 g false]).
    simpl. split_and!; try exact I; reflexivity.
Defined.
End connect_claims.

(** ** Dead receivers *)

Section dead_receivers.
Import WeakSet Dispatcher.

Lemma with_receivers_live {A} (chan : addr) (m : M WeakSet.t A) (w : World) :
  live (with_receivers chan m w).2 = live w.
Proof.
  unfold with_receivers. destruct (heap w !! chan); [|done].
  by destruct (m _).
Qed.

Lemma channel_live (i : string) (p : option owner) (w : World) (a : addr) :
  a ∈ live (Band.channel i p w).2 → a ∈ live w ∨ a = next_id w + 1.
Proof.
  destruct (channel_cases i p w)
    as [(ref & _ & ->)|[(_ & _ & ->)|(_ & _ & ->)]]; simpl; [by left | by left |].
  rewrite elem_of_union, elem_of_singleton. tauto.
Qed.

(** What is alive after an operation was alive before, or is at an
    address the operation has an object at. *)
Lemma live_run_op (a : addr) (o : op) (w : World) :
  a ∈ live (run_op o w) → a ∈ live w ∨ reuses a o w.
Proof.
  destruct o as [i p|fresh i args p kwargs|chan fresh args kwargs
                 |chan fresh obj strong|chan fresh obj|chan|a']; simpl.
  - apply channel_live.
  - pose proof (channel_live i p w a) as Hch. unfold Band.send. munfold.
    destruct (Band.channel i p w) as [[chan|e] w1]; simpl in *; [|done].
    destruct chan as [chan|].
    + destruct (get_channel_receivers_frame chan w1) as (gs & w2 & -> & _ & Hl & _).
      simpl. rewrite Band_dispatch_unfold. simpl. by rewrite Hl.
    + rewrite Band_dispatch_unfold. by simpl.
  - intros Ha. left. destruct (heap w !! chan) as [c|] eqn:Hc.
    + destruct (get_receivers_frame chan w) as (rs & w1 & Hrs & _ & Hl & _).
      rewrite (Channel_send_unfold _ _ _ _ _ _ _ _ Hc Hrs), Band_dispatch_unfold in Ha.
      simpl in Ha. by rewrite <- Hl.
    + unfold Channel.send in Ha. munfold. by rewrite Hc in Ha.
  - unfold holding, set_live, Channel.connect. munfold. simpl.
    rewrite with_receivers_live. simpl.
    rewrite elem_of_union, elem_of_singleton. intros [->|?]; [by right | by left].
  - unfold holding, set_live, Channel.disconnect. munfold. simpl.
    rewrite with_receivers_live. simpl.
    rewrite elem_of_union, elem_of_singleton. intros [->|?]; [by right | by left].
  - intros Ha. left. unfold collect_channel, set_heap, set_live in Ha. munfold.
    destruct (heap w !! chan) as [c|]; [|done]. simpl in Ha.
    destruct (channels (band w) !! key_of c) as [ref|]; simpl in Ha; [|set_solver].
    destruct (decide _); simpl in Ha; [|set_solver].
    rewrite _remove_channel_spec in Ha. simpl in Ha. set_solver.
  - intros Ha. left. case_bool_decide; [done|].
    unfold collect_object, set_live, set_heap in Ha. munfold. simpl in Ha. set_solver.
Qed.

Lemma dead_stays_dead (a : addr) (ops : list op) (w : World) :
  a ∉ live w → never_reused a ops w → a ∉ live (run_ops ops w).
Proof.
  revert w. induction ops as [|o ops IH]; intros w Hdead Hnever; [done|].
  destruct Hnever as [Ho Hrest]. simpl. apply IH; [|done].
  intros [?|?]%live_run_op; done.
Qed.

Lemma collect_dead (a : addr) (w : World) :
  a ∉ held w → a ∉ live (run_op (OpCollectObject a) w).
Proof.
  intros Hheld. simpl. rewrite bool_decide_false by done.
  unfold collect_object, set_live, set_heap. munfold. simpl. set_solver.
Qed.

Lemma unwatched_spec (a : addr) (s : WeakSet.t) (r : Ref) :
  WeakSet_ok s → r ∈ _refs s →
  (weak_target r = Some a →
   r ∉ _refs (unwatched a s) ∧ Ref_ref_id r ∉ _ids (unwatched a s)) ∧
  (weak_target r ≠ Some a →
   r ∈ _refs (unwatched a s) ∧ Ref_ref_id r ∈ _ids (unwatched a s)).
Proof.
  intros Hok Hr. unfold unwatched. simpl. split; intros Hwt.
  - split.
    + rewrite list_elem_of_filter. tauto.
    + rewrite list_elem_of_fmap. intros (r' & Hid & [Hwt' Hr']%list_elem_of_filter).
      apply Hwt'. by rewrite <- (holder_unique s r r' Hok Hr Hr' Hid).
  - assert (r ∈ filter (λ r, weak_target r ≠ Some a) (_refs s))
      by by apply list_elem_of_filter.
    split; [done | by apply list_elem_of_fmap_2].
Qed.

(** C9: a weak [add] stores in the holder the identity computed at
    insertion and makes it watch the target, and the holder gives
    nothing once the target is dead; the callback [_remove_ref], given
    that holder, takes the entry of that identity out of both lists of
    an aligned set; when an object that nothing holds is collected, the
    callbacks take the entries that watch it, and no other, out of
    every receiver set, in a world whose sets are aligned; iteration
    gives only what holders with a live target give, whether or not the
    callback has run; a send through a channel calls no receiver whose
    target is dead, and so no send after the collection of an object
    calls a receiver whose target it was, as long as its address is not
    used again.  In a set that a failed [add] has left with one identity
    too many, the callback of a dead receiver takes out the holder of
    another: [g], alive and never disconnected, is no longer called,
    and the dead holder stays. *)
Theorem dead_receiver_omitted :
  (∀ fresh obj rid s s',
     _ref_id fresh obj = Ok rid → rid ∉ _ids s →
     add fresh obj false s = (Ok (), s') →
     ∃ ref, _refs s' = _refs s ++ [ref] ∧ _ids s' = _ids s ++ [rid] ∧
            Ref_ref_id ref = rid ∧ weak_target ref = Some (target_addr obj) ∧
            ∀ live, target_addr obj ∉ live → Ref_call live ref = None) ∧
  (∀ ref s,
     WeakSet_ok s → ref ∈ _refs s →
     _remove_ref ref s = (Ok (), without (Ref_ref_id ref) s) ∧
     (Ref_ref_id ref ∉ _ids (without (Ref_ref_id ref) s)) ∧
     ref ∉ _refs (without (Ref_ref_id ref) s)) ∧
  (∀ w a chan c,
     sets_ok w → a ∉ held w → heap w !! chan = Some c →
     let w' := run_op (OpCollectObject a) w in
     (a ∉ live w') ∧ sets_ok w' ∧
     heap w' !! chan =
       Some {| identifier := identifier c; parent := parent c;
               receivers_id := receivers_id c;
               receivers := unwatched a (receivers c) |} ∧
     ∀ r, r ∈ _refs (receivers c) →
       (weak_target r = Some a →
        r ∉ _refs (unwatched a (receivers c)) ∧
        Ref_ref_id r ∉ _ids (unwatched a (receivers c))) ∧
       (weak_target r ≠ Some a →
        r ∈ _refs (unwatched a (receivers c)) ∧
        Ref_ref_id r ∈ _ids (unwatched a (receivers c)))) ∧
  (∀ live s,
     iter live s = omap (Ref_call live) (filter (alive_ref live) (_refs s))) ∧
  (∀ chan fresh args kwargs w, ∃ evs,
     trace (Channel.send chan fresh args kwargs w).2 = trace w ++ evs ∧
     ∀ obj, obj ∈ called evs → target_addr obj ∈ live w) ∧
  (∀ w a ops chan fresh args kwargs,
     a ∉ held w →
     let w' := run_ops ops (run_op (OpCollectObject a) w) in
     never_reused a ops (run_op (OpCollectObject a) w) →
     ∃ evs,
       trace (Channel.send chan fresh args kwargs w').2 = trace w' ++ evs ∧
       ∀ obj, obj ∈ called evs → target_addr obj ≠ a) ∧
  (∀ fresh,
     let d := DEFAULT_DISPATCHER in
     let p := partial 5 (Ok VNone) in
     let f := function 7 "f" (Ok (VStr "f")) in
     let g := function 9 "g" (Ok (VStr "g")) in
     let w3 := run_ops [OpConnect 1 0 f false; OpConnect 1 0 g false]
                 (run_ops [OpConnect 1 0 p true]
                    (run_ops [OpChannel "x" None] (Band.__init__ d))) in
     let w4 := run_op (OpCollectObject 7) w3 in
     reachable d w3 ∧ 7 ∉ held w3 ∧
     (Channel.send 1 fresh [] [] w3).1 = Ok [VStr "f"; VStr "g"] ∧
     heap w4 !! 1 =
       Some {| identifier := "x"; parent := None; receivers_id := 2;
               receivers := {| _refs := [WeakRef f (IdObj 7)];
                               _ids := [IdObj 5; IdObj 9] |} |} ∧
     9 ∈ live w4 ∧
     (Channel.send 1 fresh [] [] w4).1 = Ok []).
Proof.
  split_and!.
  - intros fresh obj rid s s' Hid Hin Hadd.
    rewrite (add_fresh _ _ _ _ _ Hid Hin) in Hadd.
    destruct (if is_method obj then _ else _) as [ref|e] eqn:Hnew; [|done].
    simplify_eq. exists ref.
    destruct (new_weak_ref obj rid ref Hnew) as [Hwt Hcall].
    split_and!; [done | done | | done |].
    + by apply (new_ref_id obj rid false).
    + intros live Hdead. by rewrite Hcall, bool_decide_false.
  - intros ref s Hok Hin.
    assert (Hid : Ref_ref_id ref ∈ _ids s).
    { destruct Hok as [-> _]. by apply list_elem_of_fmap_2. }
    split_and!.
    + by apply _remove_ref_without.
    + apply without_absent.
    + simpl. rewrite list_elem_of_filter. by intros [? _].
  - intros w a chan c Hok Hheld Hc w'. split_and!.
    + by apply collect_dead.
    + by apply sets_ok_run_op.
    + unfold w', run_op. rewrite bool_decide_false by done.
      rewrite collect_object_heap, Hc. simpl.
      by destruct (on_collect_spec a (receivers c) (Hok _ _ Hc)) as [-> _].
    + intros r Hr. by apply unwatched_spec; [apply (Hok chan)|].
  - apply iter_alive.
  - apply Channel_send_called.
  - intros w a ops chan fresh args kwargs Hheld w' Hnever.
    destruct (Channel_send_called chan fresh args kwargs w') as (evs & Htr & Hlive).
    exists evs. split; [done|]. intros obj Hobj Heq.
    apply (dead_stays_dead a ops (run_op (OpCollectObject a) w));
      [by apply collect_dead | done |].
    specialize (Hlive obj Hobj). by rewrite Heq in Hlive.
  - intros fresh d p f g w3 w4. split_and!.
    + repeat apply reachable_run_ops; try apply reachable_init;
        by repeat constructor.
    + apply (bool_decide_unpack _). vm_compute. reflexivity.
    + vm_compute. reflexivity.
    + vm_compute. reflexivity.
    + apply (bool_decide_unpack _). vm_compute. reflexivity.
    + vm_compute. reflexivity.
Qed.

Lemma dead_receiver_omitted_witness :
  let f := function 7 "f" (Ok (VStr "f")) in
  let g := function 9 "g" (Ok (VStr "g")) in
  let w := connected DEFAULT_DISPATCHER [f; g] in
  let w' := run_op (OpCollectObject 7) w in
  (Channel.send 1 (λ _, 0) [] [] w).1 = Ok [VStr "f"; VStr "g"] ∧
  (7 ∉ live w') ∧
  heap w' !! 1 =
    Some {| identifier := "x"; parent := None; receivers_id := 2;
            receivers := {| _refs := [WeakRef g (IdObj 9)]; _ids := [IdObj 9] |} |} ∧
  (Channel.send 1 (λ _, 0) [] [] w').1 = Ok [VStr "g"] ∧
  ∃ evs,
    trace (Channel.send 1 (λ _, 0) [] [] w').2 = trace w' ++ evs ∧
    ∀ obj, obj ∈ called evs → target_addr obj ≠ 7.
Proof.
  intros f g w w'.
  destruct dead_receiver_omitted as (_ & _ & Hcollect & _ & _ & Hsends & _).
  assert (Hsets : sets_ok w).
  { apply (sets_ok_run_ops
             [OpChannel "x" None; OpConnect 1 0 f false; OpConnect 1 0 g false]);
      [apply sets_ok_init|].
    simpl. split_and!; try exact I; vm_compute; reflexivity. }
  assert (Hheld : 7 ∉ held w).
  { apply (bool_decide_unpack _). vm_compute. reflexivity. }
  destruct (Hcollect w 7 1 _ Hsets Hheld eq_refl) as (Hdead & _ & Hheap & _).
  split_and!.
  - vm_compute. reflexivity.
  - exact Hdead.
  - exact Hheap.
  - vm_compute. reflexivity.
  - apply (Hsends w 7 [] 1 (λ _, 0) [] [] Hheld). exact I.
Defined.
End dead_receivers.

(** ** Creation order of the channels of an identifier *)

Section order.





Lemma ordered_NoDup {A} (R : A → A → Prop) (l : list A) :
  (∀ x, ¬ R x x) → ordered R l → NoDup l.
Proof.
  intros Hirr. induction l as [|a l IH]; simpl; [constructor|].
  intros [Ha Hl]. constructor; [|by apply IH].
  rewrite Forall_forall in Ha. intros Hin. by apply (Hirr a), Ha.
Qed.





End order.

(** ** The resolution of receivers *)

Section resolution.
Import WeakSet Dispatcher.

Lemma deref_registered (w : World) (k : key) (ref : ChanRef) :
  world_ok w → channels (band w) !! k = Some ref →
  Band.deref w ref = Some (ref_chan ref) ∧
  ∃ c, heap w !! ref_chan ref = Some c ∧ key_of c = k.
Proof.
  intros Hok Href. destruct (world_refs _ Hok _ _ Href) as (_ & c & Hc & Hkey).
  split; [|eauto]. unfold Band.deref. rewrite bool_decide_true; [done|].
  apply elem_of_dom. eauto.
Qed.

(** The loop of the unbound branch, on registered keys. *)
Lemma other_receivers_spec (w : World) (chan : addr) (keys : list key) :
  world_ok w →
  (∀ k, k ∈ keys → is_Some (channels (band w) !! k)) →
  Band.other_receivers w chan keys =
    ((λ x : addr * Channel, group x.2) <$> others_of w chan keys, None).
Proof.
  intros Hok. induction keys as [|k keys IH]; intros Hreg; [done|].
  destruct (Hreg k) as [ref Href]; [left|].
  destruct (deref_registered _ _ _ Hok Href) as (Hderef & u & Hu & _).
  specialize (IH (λ k' Hk', Hreg k' (list_elem_of_further _ _ _ Hk'))).
  unfold others_of in *. cbn [Band.other_receivers omap list_omap].
  rewrite Href, Hderef. simpl. rewrite Hu. simpl.
  destruct (decide (ref_chan ref = chan)); [done|].
  rewrite IH. done.
Qed.



Lemma unbound_key (w : World) (a : addr) (u : Channel) :
  world_ok w → heap w !! a = Some u →
  (bound u = false ↔ key_of u = (identifier u, id_None)).
Proof.
  intros Hok Hu. unfold bound, key_of.
  destruct (parent u) as [p|] eqn:Hp; simpl.
  - pose proof (world_parent _ Hok _ _ _ Hu Hp).
    split; [done | by intros [= ?]].
  - done.
Qed.

Lemma get_channel_receivers_unbound (w : World) (chan : addr) (c : Channel) :
  world_ok w → heap w !! chan = Some c → bound c = false →
  ∃ l, by_identifier (band w) !! identifier c = Some l ∧
    Band.get_channel_receivers chan w =
      (Ok (group c :: ((λ x : addr * Channel, group x.2) <$> others_of w chan l), None), w).
Proof.
  intros Hok Hc Hb. pose proof (world_registry _ Hok) as Hreg.
  destruct (world_heap _ Hok _ _ Hc) as (ref & Href & Hchan).
  destruct (proj1 (by_identifier_iff _ Hreg (key_of c))) as (l & Hl & Hin); [eauto|].
  simpl in Hl. exists l. split; [done|].
  unfold Band.get_channel_receivers. munfold. rewrite Hc, Hb.
  rewrite by_identifier_get_eq. simpl.
  assert (Hw : with_band
            (λ b, {| dispatcher := dispatcher b; channels := channels b;
                     by_parent := by_parent b;
                     by_identifier :=
                       match by_identifier b !! identifier c with
                       | Some _ => by_identifier b
                       | None => <[identifier c := []]> (by_identifier b)
                       end |}) w = w).
  { unfold with_band. destruct w as [[] ? ? ? ?]. simpl in *. by rewrite Hl. }
  rewrite Hw, Hl. simpl. rewrite other_receivers_spec; [done | done |].
  intros k Hk. apply (by_identifier_iff _ Hreg). exists l. split; [|done].
  by rewrite (by_identifier_key _ Hreg _ _ _ Hl Hk).
Qed.

Lemma get_channel_receivers_bound (w : World) (chan : addr) (c : Channel) :
  world_ok w → heap w !! chan = Some c → bound c = true →
  ∃ rest, Band.get_channel_receivers chan w = (Ok (group c :: rest, None), w) ∧
    ((rest = [] ∧
      ∀ a u, heap w !! a = Some u → identifier u = identifier c → bound u = true) ∨
     (∃ a u, heap w !! a = Some u ∧ identifier u = identifier c ∧
             bound u = false ∧ rest = [group u])).
Proof.
  intros Hok Hc Hb. unfold Band.get_channel_receivers. munfold. rewrite Hc, Hb.
  case_bool_decide as Hdom.
  - apply elem_of_dom in Hdom as [ref Href]. rewrite Href.
    destruct (deref_registered _ _ _ Hok Href) as (-> & u & Hu & Hkey).
    rewrite Hu. eexists. split; [done|]. right. exists (ref_chan ref), u.
    split_and!; [done | | | done].
    + by injection Hkey.
    + apply (unbound_key w (ref_chan ref) u Hok Hu). rewrite Hkey.
      by injection Hkey as -> _.
  - eexists. split; [done|]. left. split; [done|].
    intros a u Hu Hi. destruct (bound u) eqn:Hbu; [done|]. exfalso. apply Hdom.
    apply elem_of_dom. destruct (world_heap _ Hok _ _ Hu) as (ref & Href & _).
    apply (unbound_key w a u Hok Hu) in Hbu. rewrite Hbu, Hi in Href. eauto.
Qed.


End resolution.

(** ** Sends through the band *)

Section band_send.
Import WeakSet Dispatcher.

Lemma elem_of_held (w : World) (chan : addr) (c : Channel) :
  heap w !! chan = Some c → receivers_id c ∈ held w.
Proof.
  intros Hc. unfold held. apply elem_of_union_list.
  eexists. split.
  - apply list_elem_of_fmap. exists c. split; [done|].
    apply list_elem_of_fmap. exists (chan, c). split; [done|].
    by apply elem_of_map_to_list.
  - set_solver.
Qed.

Lemma sets_placed_ext (w w' : World) :
  sets_placed w →
  (∀ chan c', heap w' !! chan = Some c' →
     ∃ c, heap w !! chan = Some c ∧ receivers_id c' = receivers_id c ∧
          receivers_id c ∈ live w') →
  sets_placed w'.
Proof.
  intros Hok Hheap chan c' Hc'. destruct (Hheap _ _ Hc') as (c & Hc & -> & Hl).
  split; [by apply (Hok chan) | done].
Qed.

Lemma sets_placed_frame (w w' : World) :
  sets_placed w → heap w' = heap w → live w ⊆ live w' → sets_placed w'.
Proof.
  intros Hok Hh Hl. apply (sets_placed_ext w); [done|]. rewrite Hh.
  intros chan c Hc. exists c. split_and!; [done | done |].
  apply Hl. by apply (Hok chan).
Qed.

Lemma sets_placed_channel (i : string) (p : option owner) (w : World) :
  sets_placed w → sets_placed (Band.channel i p w).2.
Proof.
  intros Hok. destruct (channel_cases i p w)
    as [(ref & _ & ->)|[(_ & _ & ->)|(_ & _ & ->)]]; simpl; [done | done |].
  intros chan c. simpl. destruct (decide (next_id w = chan)) as [<-|Hne].
  - rewrite lookup_insert_eq. intros [= <-]. simpl. split; [done | set_solver].
  - rewrite lookup_insert_ne by done. intros Hc.
    destruct (Hok _ _ Hc). split; [done | set_solver].
Qed.

Lemma sets_placed_with_receivers {A} (chan : addr) (m : M WeakSet.t A) (w : World) :
  sets_placed w → sets_placed (with_receivers chan m w).2.
Proof.
  intros Hok. unfold with_receivers.
  destruct (heap w !! chan) as [c|] eqn:Hc; [|done].
  destruct (m (receivers c)) as [r s]. simpl.
  intros chan' c'. simpl. destruct (decide (chan = chan')) as [<-|Hne].
  - rewrite lookup_insert_eq. intros [= <-]. simpl. by apply (Hok chan).
  - rewrite lookup_insert_ne by done. apply Hok.
Qed.

Lemma sets_placed_run_op (o : op) (w : World) :
  sets_placed w → sets_placed (run_op o w).
Proof.
  intros Hok.
  destruct o as [i p|fresh i args p kwargs|chan fresh args kwargs
                 |chan fresh obj strong|chan fresh obj|chan|a]; cbn [run_op].
  - by apply sets_placed_channel.
  - pose proof (sets_placed_channel i p w Hok) as Hok1.
    unfold Band.send. munfold.
    destruct (Band.channel i p w) as [[chan|e] w1]; simpl in *; [|done].
    destruct chan as [chan|].
    + destruct (get_channel_receivers_frame chan w1) as (gs & w2 & -> & Hh & Hl & _).
      simpl. rewrite Band_dispatch_unfold. simpl.
      apply (sets_placed_frame w1); [done | done | simpl; rewrite Hl; set_solver].
    + rewrite Band_dispatch_unfold. by simpl.
  - destruct (heap w !! chan) as [c|] eqn:Hc.
    + destruct (get_receivers_frame chan w) as (rs & w1 & Hrs & Hh & Hl & _).
      rewrite (Channel_send_unfold _ _ _ _ _ _ _ _ Hc Hrs), Band_dispatch_unfold.
      simpl. apply (sets_placed_frame w); [done | done | simpl; rewrite Hl; set_solver].
    + unfold Channel.send. munfold. by rewrite Hc.
  - unfold holding, set_live. munfold. simpl.
    apply sets_placed_with_receivers.
    apply (sets_placed_frame w); [done | done | simpl; set_solver].
  - unfold holding, set_live. munfold. simpl.
    apply sets_placed_with_receivers.
    apply (sets_placed_frame w); [done | done | simpl; set_solver].
  - unfold collect_channel, set_heap, set_live. munfold.
    destruct (heap w !! chan) as [c|] eqn:Hc; [|done]. simpl.
    assert (Hdel : ∀ w', heap w' = delete chan (heap w) →
              live w' = live w ∖ {[receivers_id c]} → sets_placed w').
    { intros w' Hh Hl. apply (sets_placed_ext w); [done|]. rewrite Hh, Hl.
      intros a c' [Hne Hc']%lookup_delete_Some. exists c'.
      split_and!; [done | done |].
      destruct (Hok _ _ Hc') as [Hid' Hin']. destruct (Hok _ _ Hc) as [Hid _].
      apply elem_of_difference. split; [done|].
      rewrite elem_of_singleton, Hid, Hid'. lia. }
    destruct (channels (band w) !! key_of c) as [ref|]; [|by apply Hdel].
    destruct (decide _); [|by apply Hdel].
    rewrite _remove_channel_spec. by apply Hdel.
  - case_bool_decide as Hheld; [done|].
    apply (sets_placed_ext w); [done|]. intros chan c'.
    rewrite collect_object_heap.
    destruct (heap w !! chan) as [c|] eqn:Hc; simpl; [|done]. intros [= <-].
    exists c. simpl. split_and!; [done | done |].
    unfold collect_object, set_live, set_heap. munfold. simpl.
    apply elem_of_difference. split; [by apply (Hok chan)|].
    rewrite elem_of_singleton. intros Heq. apply Hheld. rewrite <- Heq.
    by apply (elem_of_held w chan).
Qed.

Lemma reachable_sets_placed (d : Dispatcher.t) (w : World) :
  reachable d w → sets_placed w.
Proof.
  induction 1 as [|w o _ IH _].
  - intros chan c Hc. simpl in Hc. by rewrite lookup_empty in Hc.
  - by apply sets_placed_run_op.
Qed.

(** A [Context] takes in [WeakSet] objects as it does receivers: each
    gets a weak holder, the first one first. *)
Lemma add_WeakSet_object (fresh : addr) (g : addr * WeakSet.t) (s : WeakSet.t) :
  ∃ s' rest, add fresh (WeakSet_object g) false s = (Ok (), s') ∧
    _refs s' = _refs s ++ rest.
Proof.
  assert (Hid : _ref_id fresh (WeakSet_object g) = Ok (IdObj g.1)) by done.
  destruct (decide (IdObj g.1 ∈ _ids s)) as [Hin|Hin].
  - exists s, []. rewrite (add_present _ _ _ _ _ Hid Hin), app_nil_r. done.
  - rewrite (add_fresh _ _ _ _ _ Hid Hin). simpl. eexists _, _. done.
Qed.

Lemma add_all_objects (fresh : nat → addr) (gs : list (addr * WeakSet.t))
    (s : WeakSet.t) :
  ∃ s' rest, add_all fresh (WeakSet_object <$> gs) s = (Ok (), s') ∧
    _refs s' = _refs s ++ rest.
Proof.
  revert fresh s. induction gs as [|g gs IH]; intros fresh s.
  - exists s, []. by rewrite app_nil_r.
  - rewrite fmap_cons. cbn [add_all]. unfold mbind, M_bind.
    destruct (add_WeakSet_object (fresh 0%nat) g s) as (s1 & rest1 & -> & Hrefs1).
    destruct (IH (fresh ∘ S) s1) as (s' & rest & Hrest & Hrefs).
    exists s', (rest1 ++ rest). split; [done|].
    by rewrite Hrefs, Hrefs1, app_assoc.
Qed.

Lemma Context_of_groups (fresh : nat → addr) (i : string) (g : addr * WeakSet.t)
    (gs : list (addr * WeakSet.t)) (args : pyargs) (kwargs : pykwargs) :
  ∃ ctx rest,
    Context.__init__ fresh i (WeakSet_object <$> (g :: gs), None) args kwargs = Ok ctx ∧
    _refs (Context.receivers ctx) = WeakRef (WeakSet_object g) (IdObj g.1) :: rest.
Proof.
  unfold Context.__init__, __init__. cbn [fst snd]. rewrite fmap_cons.
  cbn [add_all]. unfold mbind, M_bind.
  assert (Hfirst : add (fresh 0%nat) (WeakSet_object g) false empty =
            (Ok (), {| _refs := [WeakRef (WeakSet_object g) (IdObj g.1)];
                       _ids := [IdObj g.1] |})) by done.
  rewrite Hfirst.
  destruct (add_all_objects (fresh ∘ S) gs
              {| _refs := [WeakRef (WeakSet_object g) (IdObj g.1)];
                 _ids := [IdObj g.1] |}) as (s' & rest & Hrest & Hrefs).
  rewrite Hrest. eexists _, rest. split; [done|]. simpl. by rewrite Hrefs.
Qed.

(** The band dispatches to the groups themselves, and the first one,
    alive, is not callable. *)
Lemma dispatch_groups (fresh : nat → addr) (i : string) (g : addr * WeakSet.t)
    (gs : list (addr * WeakSet.t)) (args : pyargs) (kwargs : pykwargs) (w : World) :
  g.1 ∈ live w →
  (∀ h ctx, before_dispatch (dispatcher (band w)) = Some h → h ctx = Ok ()) →
  (Band.dispatch fresh i (WeakSet_object <$> (g :: gs), None) args kwargs w).1 =
    Raise TypeError.
Proof.
  intros Hlive Hhook. rewrite Band_dispatch_unfold. simpl.
  destruct (Context_of_groups fresh i g gs [VTuple args; VDict kwargs] [])
    as (ctx & rest & Hctx & Hrefs).
  assert (Hiter : iter (live w) (Context.receivers ctx) =
            [] ++ WeakSet_object g :: omap (Ref_call (live w)) rest).
  { unfold iter. rewrite Hrefs. cbn [omap list_omap Ref_call].
    by rewrite bool_decide_true. }
  assert (Hpre : Forall2 (λ (r : pyobj) (v : pyval), call r args kwargs = Ok v) [] [])
    by constructor.
  by rewrite (_dispatch_Raise _ _ _ _ _ _ _ _ ctx [] _ (WeakSet_object g) [] TypeError
                Hctx (λ h, Hhook h ctx) Hiter Hpre eq_refl).
Qed.

(** What a dispatch that returns returns. *)
Lemma _dispatch_Ok_inv (d : Dispatcher.t) (live : gset addr) (fresh : nat → addr)
    (i : string) (rs : gen pyobj) (args : pyargs) (kwargs : pykwargs)
    (tr tr' : list event) (vs : list pyval) :
  _dispatch d live fresh i rs args kwargs tr = (Ok vs, tr') →
  ∃ todo, Forall2 (λ r v, call r args kwargs = Ok v) todo vs ∧
          ∀ r, r ∈ todo → r ∈ rs.1.
Proof.
  rewrite _dispatch_unfold.
  destruct (Context.__init__ _ _ _ _ _) as [ctx|e] eqn:Hctx; [|done].
  destruct (run_hook (before_dispatch d) EvBefore ctx tr) as [[[]|e] tr1]; [|done].
  destruct (run_receivers_spec d i (iter live (Context.receivers ctx)) args kwargs ctx tr1)
    as [(vs' & Hvs & ->)|(pre & r & post & vs' & e & _ & _ & _ & ->)]; [|done].
  destruct (run_hook (after_dispatch d) EvAfter _ _) as [[[]|e] tr3]; [|done].
  simpl. intros [= <- _]. exists (iter live (Context.receivers ctx)).
  unfold Context.__init__ in Hctx.
  destruct (__init__ fresh rs) as [s|] eqn:Hs; [|done].
  injection Hctx as <-. simpl in *. split; [done|].
  intros r Hr. destruct (__init___weak fresh rs s Hs) as [_ Hweak].
  by destruct (iter_weak live rs.1 (_refs s) r Hweak Hr).
Qed.

Lemma Band_send_groups (fresh : nat → addr) (i : string) (args : pyargs)
    (p : option owner) (kwargs : pykwargs) (w : World) :
  (Band.send fresh i args p kwargs w = (Raise TypeError, w) ∧
   Band.channel i p w = (Raise TypeError, w)) ∨
  (∃ w1 gs, trace w1 = trace w ∧
     Band.send fresh i args p kwargs w =
       Band.dispatch fresh i (WeakSet_object <$> gs.1, gs.2) args kwargs w1).
Proof.
  unfold Band.send. munfold.
  destruct (channel_cases i p w)
    as [(ref & _ & Heq)|[(_ & _ & Heq)|(_ & _ & Heq)]]; rewrite Heq; simpl.
  - right. destruct (Band.deref w ref) as [chan|].
    + destruct (get_channel_receivers_frame chan w) as (gs & w2 & -> & _ & _ & Htr & _).
      simpl. by exists w2, gs.
    + by exists w, ([], Some AttributeError).
  - by left.
  - right.
    destruct (get_channel_receivers_frame (next_id w) (World_created i (owner_id <$> p) w))
      as (gs & w2 & -> & _ & _ & Htr & _).
    simpl. by exists w2, gs.
Qed.

Lemma Band_send_reachable (d : Dispatcher.t) (fresh : nat → addr) (i : string)
    (args : pyargs) (p : option owner) (kwargs : pykwargs) (w : World) :
  reachable d w → owner_ok p →
  (Band.send fresh i args p kwargs w = (Raise TypeError, w)) ∨
  (∃ w1 g gs, live w1 = live (Band.channel i p w).2 ∧
     dispatcher (band w1) = dispatcher (band w) ∧ g.1 ∈ live w1 ∧
     Band.send fresh i args p kwargs w =
       Band.dispatch fresh i (WeakSet_object <$> (g :: gs), None) args kwargs w1).
Proof.
  intros Hreach Howner.
  pose proof (reachable_step d w (OpChannel i p) Hreach Howner) as Hreach1.
  simpl in Hreach1.
  pose proof (reachable_world_ok _ _ Hreach) as Hok.
  pose proof (reachable_world_ok _ _ Hreach1) as Hok1.
  pose proof (reachable_sets_placed _ _ Hreach1) as Hsets1.
  assert (Hd : dispatcher (band (Band.channel i p w).2) = dispatcher (band w)).
  { destruct (channel_cases i p w)
      as [(ref & _ & ->)|[(_ & _ & ->)|(_ & _ & ->)]]; done. }
  unfold Band.send. munfold.
  destruct (channel_cases i p w)
    as [(ref & Href & Heq)|[(_ & _ & Heq)|(_ & _ & Heq)]];
    rewrite Heq in *; simpl in *; [| by left |]; right.
  - destruct (deref_registered _ _ _ Hok Href) as (-> & c & Hc & _).
    destruct (bound c) eqn:Hb.
    + destruct (get_channel_receivers_bound w _ c Hok Hc Hb) as (rest & -> & _).
      simpl. eexists w, (group c), rest. split_and!; [done | done | | done].
      by apply (Hsets1 (ref_chan ref)).
    + destruct (get_channel_receivers_unbound w _ c Hok Hc Hb) as (l & _ & ->).
      simpl. eexists w, (group c), _. split_and!; [done | done | | done].
      by apply (Hsets1 (ref_chan ref)).
  - set (w1 := World_created i (owner_id <$> p) w) in *.
    assert (Hc : heap w1 !! next_id w = Some
              {| identifier := i; parent := owner_id <$> p;
                 receivers_id := next_id w + 1; receivers := empty |}).
    { unfold w1. simpl. apply lookup_insert_eq. }
    destruct (bound {| identifier := i; parent := owner_id <$> p;
                       receivers_id := next_id w + 1; receivers := empty |}) eqn:Hb.
    + destruct (get_channel_receivers_bound w1 _ _ Hok1 Hc Hb) as (rest & -> & _).
      simpl. eexists w1, _, rest. split_and!; [done | done | | done].
      by apply (Hsets1 (next_id w) _ Hc).
    + destruct (get_channel_receivers_unbound w1 _ _ Hok1 Hc Hb) as (l & _ & ->).
      simpl. eexists w1, _, _. split_and!; [done | done | | done].
      by apply (Hsets1 (next_id w) _ Hc).
Qed.

(** C1: [Band.send] does not dispatch to the receivers of the groups
    but to the groups: it calls no callable and never returns a result
    of a receiver; in the worlds of a program, unless the
    [before_dispatch] hook raises first, it raises [TypeError], the
    first group being a [WeakSet] object; [Band.dispatch] does not
    flatten what it is given, it is [Channel.send] that hands it the
    receivers of the groups, one after the other, and returns their
    results. *)
Theorem Band_send_raises :
  (∀ fresh i args p kwargs w, ∃ evs,
     trace (Band.send fresh i args p kwargs w).2 = trace w ++ evs ∧
     (∀ obj, obj ∈ called evs → py_call obj = None) ∧
     (∀ vs, (Band.send fresh i args p kwargs w).1 = Ok vs → vs = [])) ∧
  (∀ d w fresh i args p kwargs,
     reachable d w → owner_ok p →
     (∀ h ctx, before_dispatch (dispatcher (band w)) = Some h → h ctx = Ok ()) →
     (Band.send fresh i args p kwargs w).1 = Raise TypeError) ∧
  (∀ fresh,
     let f := function 7 "f" (Ok (VStr "f")) in
     let g := function 9 "g" (Ok (VStr "g")) in
     let w := connected DEFAULT_DISPATCHER [f; g] in
     (Channel.send 1 fresh [] [] w).1 = Ok [VStr "f"; VStr "g"] ∧
     (Band.dispatch fresh "x" ([f; g], None) [] [] w).1 = Ok [VStr "f"; VStr "g"] ∧
     (Band.send fresh "x" [] None [] w).1 = Raise TypeError ∧
     called (trace (Band.send fresh "x" [] None [] w).2) =
       [WeakSet_object (2, {| _refs := [WeakRef f (IdObj 7); WeakRef g (IdObj 9)];
                              _ids := [IdObj 7; IdObj 9] |})] ∧
     (Band.send fresh "y" [] None [] (Band.__init__ DEFAULT_DISPATCHER)).1 =
       Raise TypeError).
Proof.
  split_and!.
  - intros fresh i args p kwargs w.
    destruct (Band_send_groups fresh i args p kwargs w)
      as [[-> _]|(w1 & gs & Htr & ->)].
    { exists []. rewrite app_nil_r. split_and!; [done | | done].
      intros obj []%elem_of_nil. }
    rewrite Band_dispatch_unfold. simpl.
    destruct (_dispatch_called (dispatcher (band w1)) (live w1) fresh i
                (WeakSet_object <$> gs.1, gs.2) args kwargs (trace w1))
      as (evs & Hevs & Hcalled).
    exists evs. split_and!; [by rewrite Hevs, Htr | |].
    + intros obj Hobj. destruct (Hcalled obj Hobj) as [Hin _]. simpl in Hin.
      apply list_elem_of_fmap in Hin as (g & -> & _). done.
    + destruct (_dispatch _ _ _ _ _ _ _ _) as [r tr'] eqn:Hd. simpl.
      intros vs ->.
      destruct (_dispatch_Ok_inv _ _ _ _ _ _ _ _ _ _ Hd) as (todo & Hall & Hsrc).
      destruct Hall as [|r0 v todo vs Hr _]; [done|]. exfalso.
      specialize (Hsrc r0 (list_elem_of_here _ _)). simpl in Hsrc.
      apply list_elem_of_fmap in Hsrc as (g & -> & _). done.
  - intros d w fresh i args p kwargs Hreach Howner Hhook.
    destruct (Band_send_reachable d fresh i args p kwargs w Hreach Howner)
      as [->|(w1 & g & gs & _ & Hd & Hlive & ->)]; [done|].
    apply dispatch_groups; [done|]. by rewrite Hd.
  - intros fresh f g w. split_and!; vm_compute; reflexivity.
Qed.

Lemma Band_send_raises_witness :
  (Band.send (λ _, 0) "x" [VInt 1] None []
     (Band.__init__ DEFAULT_DISPATCHER)).1 = Raise TypeError.
Proof.
  destruct Band_send_raises as (_ & Hraises & _).
  apply (Hraises DEFAULT_DISPATCHER); [apply reachable_init | exact I |].
  intros h ctx Hh. discriminate Hh.
Defined.
End band_send.
